(** * Linear collections: queue, priority queue and singly linked list

    A shallow embedding of [queue.ts], [priority-queue.ts] and the linked
    list module, together with the properties their specification states.

    - A JavaScript array is a [list]; index 0 is the head of the list.
    - [undefined] / [null] results are [None].
    - The linked list lives in a heap of nodes addressed by location; a node
      reference is a location, [===] on nodes is equality of locations.
    - A property access on [null] / [undefined] raises [TypeError]. *)

From stdpp Require Import base numbers option list gmap strings.

Set Default Proof Using "Type".
Open Scope Z_scope.

(* ===================================================================== *)
(** ** queue.ts *)
(* ===================================================================== *)

Module Queue.
Section queue.
Context {A : Type}.

(** [const queue: any[] = []]; the back of the queue is index 0 and the
    front is the last index. *)
Definition t : Type := list A.

Definition createQueue : t := [].

(** [queue.unshift(item)] *)
Definition enqueue (item : A) (queue : t) : t := item :: queue.

(** [Array.prototype.pop]: removes the last element and returns it,
    [undefined] on an empty array (which it leaves empty). *)
Fixpoint array_pop (queue : list A) : option A * list A :=
  match queue with
  | [] => (None, [])
  | [x] => (Some x, [])
  | x :: rest => let '(r, rest') := array_pop rest in (r, x :: rest')
  end.

(** [return queue.pop()] *)
Definition dequeue (queue : t) : option A * t := array_pop queue.

(** [queue.length] *)
Definition length (queue : t) : Z := Z.of_nat (List.length queue).

(** [queue[i]] for an integer [i]: [undefined] out of range, also for a
    negative index. *)
Definition array_get (queue : list A) (i : Z) : option A :=
  if bool_decide (i < 0) then None else queue !! Z.to_nat i.

(** [const nextIdx = queue.length - 1; return queue[nextIdx]] *)
Definition peek (queue : t) : option A * t :=
  let nextIdx := length queue - 1 in
  (array_get queue nextIdx, queue).

(** [return queue.length === 0] *)
Definition isEmpty (queue : t) : bool := bool_decide (length queue = 0).

(** The elements in the order in which they will leave the queue. *)
Definition contents (queue : t) : list A := reverse queue.

(** [items.forEach(item => q.enqueue(item))] *)
Fixpoint enqueues (items : list A) (queue : t) : t :=
  match items with
  | [] => queue
  | item :: rest => enqueues rest (enqueue item queue)
  end.

(** [n] calls of [dequeue], with what each returned. *)
Fixpoint dequeues (n : nat) (queue : t) : list (option A) * t :=
  match n with
  | O => ([], queue)
  | S n' => let '(r, queue') := dequeue queue in
            let '(rs, queue'') := dequeues n' queue' in
            (r :: rs, queue'')
  end.

End queue.
End Queue.

(* ===================================================================== *)
(** ** stack.ts *)
(* ===================================================================== *)

Module Stack.
Section stack.
Context {A : Type}.

(** [const array: T[] = []]; the top of the stack is the last index. *)
Definition t : Type := list A.

Definition createStack : t := [].

(** [array.push(item)] *)
Definition push (item : A) (array : t) : t := array ++ [item].

(** [return array.pop()] *)
Definition pop (array : t) : option A * t := Queue.array_pop array.

(** [array.length] *)
Definition length (array : t) : Z := Z.of_nat (List.length array).

(** [const lastItemIdx = array.length - 1; return array[lastItemIdx]] *)
Definition peek (array : t) : option A * t :=
  let lastItemIdx := length array - 1 in
  (Queue.array_get array lastItemIdx, array).

(** [return array.length === 0] *)
Definition isEmpty (array : t) : bool := bool_decide (length array = 0).

(** [items.forEach(item => stack.push(item))] *)
Fixpoint pushes (items : list A) (array : t) : t :=
  match items with
  | [] => array
  | item :: rest => pushes rest (push item array)
  end.

(** [n] calls of [pop], with what each returned. *)
Fixpoint pops (n : nat) (array : t) : list (option A) * t :=
  match n with
  | O => ([], array)
  | S n' => let '(r, array') := pop array in
            let '(rs, array'') := pops n' array' in
            (r :: rs, array'')
  end.

End stack.
End Stack.

(* ===================================================================== *)
(** ** priority-queue.ts *)
(* ===================================================================== *)

Module PriorityQueue.
Section priority_queue.
Context {A : Type}.

(** The two lanes captured by the closure of [createPriorityQueue]. *)
Record t : Type := mk {
  lowPriorityQueue : Queue.t (A := A);
  highPriorityQueue : Queue.t (A := A);
}.

Definition createPriorityQueue : t :=
  {| lowPriorityQueue := Queue.createQueue;
     highPriorityQueue := Queue.createQueue |}.

(** [enqueue(item, isHeighPriority = false)]; an omitted second argument
    is [None]. *)
Definition enqueue (item : A) (isHeighPriority : option bool) (q : t) : t :=
  if default false isHeighPriority
  then {| lowPriorityQueue := lowPriorityQueue q;
          highPriorityQueue := Queue.enqueue item (highPriorityQueue q) |}
  else {| lowPriorityQueue := Queue.enqueue item (lowPriorityQueue q);
          highPriorityQueue := highPriorityQueue q |}.

Definition dequeue (q : t) : option A * t :=
  if negb (Queue.isEmpty (highPriorityQueue q))
  then let '(r, high) := Queue.dequeue (highPriorityQueue q) in
       (r, {| lowPriorityQueue := lowPriorityQueue q; highPriorityQueue := high |})
  else let '(r, low) := Queue.dequeue (lowPriorityQueue q) in
       (r, {| lowPriorityQueue := low; highPriorityQueue := highPriorityQueue q |}).

Definition peek (q : t) : option A * t :=
  if negb (Queue.isEmpty (highPriorityQueue q))
  then let '(r, high) := Queue.peek (highPriorityQueue q) in
       (r, {| lowPriorityQueue := lowPriorityQueue q; highPriorityQueue := high |})
  else let '(r, low) := Queue.peek (lowPriorityQueue q) in
       (r, {| lowPriorityQueue := low; highPriorityQueue := highPriorityQueue q |}).

Definition length (q : t) : Z :=
  Queue.length (highPriorityQueue q) + Queue.length (lowPriorityQueue q).

Definition isEmpty (q : t) : bool :=
  Queue.isEmpty (highPriorityQueue q) && Queue.isEmpty (lowPriorityQueue q).

(** The waiting items of each lane, next to leave first. *)
Definition high (q : t) : list A := Queue.contents (highPriorityQueue q).
Definition low (q : t) : list A := Queue.contents (lowPriorityQueue q).

(** [n] calls of [dequeue], with what each returned. *)
Fixpoint dequeues (n : nat) (q : t) : list (option A) * t :=
  match n with
  | O => ([], q)
  | S n' => let '(r, q') := dequeue q in
            let '(rs, q'') := dequeues n' q' in
            (r :: rs, q'')
  end.

End priority_queue.
End PriorityQueue.

(* ===================================================================== *)
(** ** The linked list *)
(* ===================================================================== *)

(** What a call can do: return, raise [TypeError] (a property access on
    [null] or [undefined]), or still be running when the fuel given to its
    [while (current)] loop is spent.  [Stuck] is a reference to a location
    the heap does not hold; no JavaScript object graph has one. *)
Inductive outcome (R : Type) : Type :=
  | Ret (r : R)
  | TypeError
  | OutOfFuel
  | Stuck.
Arguments Ret {R} r.
Arguments TypeError {R}.
Arguments OutOfFuel {R}.
Arguments Stuck {R}.

#[global] Instance outcome_ret : MRet outcome := λ R r, Ret r.
#[global] Instance outcome_bind : MBind outcome := λ R S k m,
  match m with
  | Ret r => k r
  | TypeError => TypeError
  | OutOfFuel => OutOfFuel
  | Stuck => Stuck
  end.

(** [Array.prototype.join] on elements already converted to strings. *)
Fixpoint join (sep : string) (l : list string) : string :=
  match l with
  | [] => EmptyString
  | [x] => x
  | x :: rest => x +:+ sep +:+ join sep rest
  end.

Module LinkedList.
Section linked_list.
Context {T : Type}.

Definition loc : Type := nat.

(** [interface INode<T> { value: T; next: INode | null }] *)
Record INode : Type := mkNode {
  value : T;
  next : option loc;
}.

(** The object returned by [createLinkedList], with the nodes it can
    reach (and those it once held) in [heap]. *)
Record t : Type := mk {
  heap : gmap loc INode;
  head : option loc;
  tail : option loc;
  length : Z;
}.

(** Reading a property of [p]: [TypeError] when [p] is [null] or
    [undefined]. *)
Definition deref (h : gmap loc INode) (p : option loc) : outcome INode :=
  match p with
  | None => TypeError
  | Some l => match h !! l with
              | Some nd => Ret nd
              | None => Stuck
              end
  end.

(** [p.next = v] *)
Definition set_next (h : gmap loc INode) (p : option loc) (v : option loc)
  : outcome (gmap loc INode) :=
  match p with
  | None => TypeError
  | Some l => match h !! l with
              | Some nd => Ret (<[l := {| value := value nd; next := v |}]> h)
              | None => Stuck
              end
  end.

(** [createNode(value)]: a new object [{ value, next: null }]. *)
Definition createNode (v : T) (h : gmap loc INode) : loc * gmap loc INode :=
  let l := fresh (dom h) in
  (l, <[l := {| value := v; next := None |}]> h).

Definition createLinkedList : t :=
  {| heap := ∅; head := None; tail := None; length := 0 |}.

Definition isEmpty (this : t) : bool := bool_decide (length this = 0).

Definition push (v : T) (this : t) : outcome (loc * t) :=
  let '(node, h) := createNode v (heap this) in
  if decide (head this = None) then
    Ret (node, {| heap := h; head := Some node; tail := Some node;
                  length := length this + 1 |})
  else
    h' ← set_next h (tail this) (Some node);
    Ret (node, {| heap := h'; head := head this; tail := Some node;
                  length := length this + 1 |}).

(** The loop of [pop]: the first node from [current] on whose [next] is
    the tail, [None] ([penultimate] left [undefined]) when the walk falls
    off the chain. *)
Fixpoint find_penultimate (fuel : nat) (h : gmap loc INode) (tl : option loc)
    (current : option loc) : outcome (option loc) :=
  match fuel with
  | O => OutOfFuel
  | S fuel' =>
      match current with
      | None => Ret None
      | Some l =>
          nd ← deref h current;
          if decide (next nd = tl) then Ret (Some l)
          else find_penultimate fuel' h tl (next nd)
      end
  end.

Definition pop (fuel : nat) (this : t) : outcome (option loc * t) :=
  if isEmpty this then Ret (None, this)
  else
    let node := tail this in
    if decide (head this = tail this) then
      Ret (node, {| heap := heap this; head := None; tail := None;
                    length := length this - 1 |})
    else
      penultimate ← find_penultimate fuel (heap this) (tail this) (head this);
      h' ← set_next (heap this) penultimate None;
      Ret (node, {| heap := h'; head := head this; tail := penultimate;
                    length := length this - 1 |}).

(** [while (i < index) { i++; current = current.next }], for an integer
    [index]: [n] iterations. *)
Fixpoint walk (h : gmap loc INode) (n : nat) (current : option loc)
  : outcome (option loc) :=
  match n with
  | O => Ret current
  | S n' => nd ← deref h current; walk h n' (next nd)
  end.

Definition get (index : Z) (this : t) : outcome (option loc * t) :=
  if bool_decide (index < 0) || bool_decide (index > length this) then
    Ret (None, this)
  else if bool_decide (index = 0) then Ret (head this, this)
  else
    current ← walk (heap this) (Z.to_nat index) (head this);
    Ret (current, this).

(** [while (i < index) { i++; previous = current; current = current.next }] *)
Fixpoint walk_previous (h : gmap loc INode) (n : nat)
    (previous current : option loc) : outcome (option loc * option loc) :=
  match n with
  | O => Ret (previous, current)
  | S n' => nd ← deref h current; walk_previous h n' current (next nd)
  end.

Definition delete (index : Z) (this : t) : outcome (option loc * t) :=
  if bool_decide (index < 0) || bool_decide (index > length this) then
    Ret (None, this)
  else if bool_decide (index = 0) then
    let deleted := head this in
    nd ← deref (heap this) (head this);
    Ret (deleted, {| heap := heap this; head := next nd; tail := tail this;
                     length := length this - 1 |})
  else
    '(previous, current) ← walk_previous (heap this) (Z.to_nat index) None (head this);
    let deleted := current in
    nd ← deref (heap this) current;
    h' ← set_next (heap this) previous (next nd);
    Ret (deleted, {| heap := h'; head := head this; tail := tail this;
                     length := length this - 1 |}).

(** [while (current) { values.push(current.value); current = current.next }] *)
Fixpoint collect (fuel : nat) (h : gmap loc INode) (values : list T)
    (current : option loc) : outcome (list T) :=
  match fuel with
  | O => OutOfFuel
  | S fuel' =>
      match current with
      | None => Ret values
      | Some _ =>
          nd ← deref h current;
          collect fuel' h (values ++ [value nd]) (next nd)
      end
  end.

(** [show] is the conversion to string that [join] applies to each
    element. *)
Definition print (show : T → string) (fuel : nat) (this : t)
  : outcome (string * t) :=
  values ← collect fuel (heap this) [] (head this);
  Ret (join " => " (show <$> values), this).

(** *** Sequences of calls *)

(** [values.map(val => list.push(val))], keeping the final list only. *)
Fixpoint pushes (values : list T) (this : t) : outcome t :=
  match values with
  | [] => Ret this
  | v :: rest => '(_, this') ← push v this; pushes rest this'
  end.

(** One successful removal: a [pop] or a [delete] that returned a node. *)
Definition removal (this this' : t) : Prop :=
  (∃ fuel node, pop fuel this = Ret (Some node, this'))
  ∨ (∃ index node, delete index this = Ret (Some node, this')).

(** A call on the list, and the state it leaves when it returns.  A call
    that raises has not assigned anything by then: every statement that can
    raise comes before the first assignment of its method. *)
Inductive call : Type :=
  | Push (v : T)
  | Pop (fuel : nat)
  | Get (index : Z)
  | Delete (index : Z)
  | Print (show : T → string) (fuel : nat)
  | IsEmpty.

Definition invoke (c : call) (this : t) : outcome t :=
  match c with
  | Push v => '(_, this') ← push v this; Ret this'
  | Pop fuel => '(_, this') ← pop fuel this; Ret this'
  | Get index => '(_, this') ← get index this; Ret this'
  | Delete index => '(_, this') ← delete index this; Ret this'
  | Print show fuel => '(_, this') ← print show fuel this; Ret this'
  | IsEmpty => let _ := isEmpty this in Ret this
  end.

Definition step (this this' : t) : Prop := ∃ c, invoke c this = Ret this'.

(** The states that calls on a new list lead to. *)
Definition reachable (this : t) : Prop := rtc step createLinkedList this.

(** *** The sequence a state represents *)

(** [lseg h p nodes q]: following [next] from [p] visits exactly the
    locations of [nodes], which hold the values of [nodes], and ends
    at [q]. *)
Fixpoint lseg (h : gmap loc INode) (p : option loc) (nodes : list (loc * T))
    (q : option loc) : Prop :=
  match nodes with
  | [] => p = q
  | (l, v) :: rest =>
      p = Some l ∧ ∃ nx, h !! l = Some {| value := v; next := nx |}
                         ∧ lseg h nx rest q
  end.

(** The chain from [head] is [nodes] and ends in [null]. *)
Definition chain (this : t) (nodes : list (loc * T)) : Prop :=
  lseg (heap this) (head this) nodes None.

(** [this] is a linked list holding [nodes]: the chain from [head] is
    [nodes], no node occurs twice, [tail] is the last node and [length]
    their number. *)
Definition is_list (this : t) (nodes : list (loc * T)) : Prop :=
  chain this nodes
  ∧ NoDup nodes.*1
  ∧ tail this = last nodes.*1
  ∧ length this = Z.of_nat (List.length nodes).

(** I1: [length == 0] iff [head == none] iff [tail == none]. *)
Definition I1 (this : t) : Prop :=
  (length this = 0 ↔ head this = None) ∧ (head this = None ↔ tail this = None).

(** I2: if [length == 1] then [head == tail]. *)
Definition I2 (this : t) : Prop :=
  length this = 1 → head this = tail this.

(** I4: [tail.next == none]. *)
Definition I4 (this : t) : Prop :=
  ∀ l, tail this = Some l → ∃ nd, heap this !! l = Some nd ∧ next nd = None.

(** What every reachable state keeps: a chain from [head] that ends in
    [null] and repeats no node (I5), a tail whose [next] is [null] (I4),
    and a tail whenever there is a head. *)
Definition has_chain (this : t) : Prop :=
  ∃ nodes, chain this nodes ∧ NoDup nodes.*1 ∧ I4 this
           ∧ (tail this = None → head this = None).

(** [has_chain], and [length] counts at least the nodes of the chain. *)
Definition counted_chain (this : t) : Prop :=
  ∃ nodes, chain this nodes ∧ NoDup nodes.*1 ∧ I4 this
           ∧ (tail this = None → head this = None)
           ∧ Z.of_nat (List.length nodes) ≤ length this.

(** [n] calls of [pop], with what each returned. *)
Fixpoint pops (fuel n : nat) (this : t) : outcome (list (option loc) * t) :=
  match n with
  | O => Ret ([], this)
  | S n' => '(r, this') ← pop fuel this;
            '(rs, this'') ← pops fuel n' this';
            Ret (r :: rs, this'')
  end.

(** A removing call, [list.pop()] or [list.delete(index)], and a sequence
    of them with what each returned. *)
Inductive removal_call : Type :=
  | ByPop
  | ByDelete (index : Z).

Definition remove (fuel : nat) (c : removal_call) (this : t)
  : outcome (option loc * t) :=
  match c with
  | ByPop => pop fuel this
  | ByDelete index => delete index this
  end.

Fixpoint removals (fuel : nat) (calls : list removal_call) (this : t)
  : outcome (list (option loc) * t) :=
  match calls with
  | [] => Ret ([], this)
  | c :: rest => '(r, this') ← remove fuel c this;
                 '(rs, this'') ← removals fuel rest this';
                 Ret (r :: rs, this'')
  end.

(** [in_range n calls]: made on a list of [n] nodes, each call of [calls]
    finds a node to remove: a [pop] meets a list that is not empty and a
    [delete] is given an index from 0 below the number of nodes left.  A
    [delete] at the last index is the last call of the sequence. *)
Fixpoint in_range (n : nat) (calls : list removal_call) {struct calls}
  : Prop :=
  match calls with
  | [] => True
  | c :: rest =>
      match n with
      | O => False
      | S n' =>
          match c with
          | ByPop => True
          | ByDelete index =>
              0 ≤ index ≤ Z.of_nat n' ∧ (index = Z.of_nat n' → rest = [])
          end
          ∧ in_range n' rest
      end
  end.

End linked_list.
End LinkedList.

(** The lists used as examples: ['a'], ['a', 'b'] and ['a', 'b', 'c'], as
    three pushes on a new list build them. *)
Module Examples.
Import LinkedList.

Definition node_a (nx : option loc) : INode := {| value := "a"; next := nx |}.
Definition node_b (nx : option loc) : INode := {| value := "b"; next := nx |}.
Definition node_c (nx : option loc) : INode := {| value := "c"; next := nx |}.

Definition list_a : t :=
  {| heap := {[ 0%nat := node_a None ]};
     head := Some 0%nat; tail := Some 0%nat; length := 1 |}.

Definition list_ab : t :=
  {| heap := <[ 1%nat := node_b None ]> {[ 0%nat := node_a (Some 1%nat) ]};
     head := Some 0%nat; tail := Some 1%nat; length := 2 |}.

Definition list_abc : t :=
  {| heap := <[ 2%nat := node_c None ]>
               (<[ 1%nat := node_b (Some 2%nat) ]>
                  {[ 0%nat := node_a (Some 1%nat) ]});
     head := Some 0%nat; tail := Some 2%nat; length := 3 |}.

Definition nodes_a : list (loc * string) := [(0%nat, "a")].
Definition nodes_ab : list (loc * string) := [(0%nat, "a"); (1%nat, "b")].
Definition nodes_abc : list (loc * string) :=
  [(0%nat, "a"); (1%nat, "b"); (2%nat, "c")].
End Examples.

(* ===================================================================== *)
(** ** Properties of the queue *)
(* ===================================================================== *)

Module QueueFacts.
Section queue.
Context {A : Type}.
Implicit Types (queue l : list A) (x : A).

Lemma array_pop_snoc l x : Queue.array_pop (l ++ [x]) = (Some x, l).
Proof.
  induction l as [|y l IH]; [done|].
  change ((y :: l) ++ [x]) with (y :: (l ++ [x])).
  cbn [Queue.array_pop]. rewrite IH.
  by destruct (l ++ [x]) eqn:E; [destruct l; discriminate|].
Qed.

Lemma array_get_last_snoc l x :
  Queue.array_get (l ++ [x]) (Queue.length (l ++ [x]) - 1) = Some x.
Proof.
  unfold Queue.array_get, Queue.length. rewrite length_app. cbn [List.length].
  rewrite bool_decide_eq_false_2 by lia.
  replace (Z.to_nat (Z.of_nat (List.length l + 1) - 1))
    with (List.length l + 0)%nat by lia.
  by rewrite lookup_app_r, Nat.add_comm, Nat.add_sub by lia.
Qed.

Lemma snoc_cases l : l = [] ∨ ∃ l' x, l = l' ++ [x].
Proof. induction l as [|x l _] using rev_ind; [by left|right; eauto]. Qed.

Lemma isEmpty_nil queue : Queue.isEmpty queue = true ↔ queue = [].
Proof.
  unfold Queue.isEmpty, Queue.length. rewrite bool_decide_eq_true.
  destruct queue; cbn; split; (done || lia).
Qed.

Lemma isEmpty_contents queue :
  Queue.isEmpty queue = true ↔ Queue.contents queue = [].
Proof.
  rewrite isEmpty_nil. unfold Queue.contents.
  split; [by intros ->|]. intros H.
  apply (f_equal reverse) in H. by rewrite reverse_involutive in H.
Qed.

(** FIFO: an item joins at the end of the line ... *)
Lemma contents_enqueue x queue :
  Queue.contents (Queue.enqueue x queue) = Queue.contents queue ++ [x].
Proof. unfold Queue.contents, Queue.enqueue. by rewrite reverse_cons. Qed.

(** ... and [dequeue] takes the one at its start. *)
Lemma dequeue_contents queue :
  ∃ queue', Queue.dequeue queue = (head (Queue.contents queue), queue')
            ∧ Queue.contents queue' = tail (Queue.contents queue).
Proof.
  unfold Queue.contents, Queue.dequeue.
  destruct (snoc_cases queue) as [->|(l & x & ->)]; [by exists []|].
  rewrite reverse_snoc. exists l. by rewrite array_pop_snoc.
Qed.

Lemma peek_contents queue :
  Queue.peek queue = (head (Queue.contents queue), queue).
Proof.
  unfold Queue.peek, Queue.contents. f_equal.
  destruct (snoc_cases queue) as [->|(l & x & ->)]; [done|].
  by rewrite array_get_last_snoc, reverse_snoc.
Qed.

Lemma length_contents queue :
  Queue.length queue = Z.of_nat (List.length (Queue.contents queue)).
Proof. unfold Queue.length, Queue.contents. by rewrite length_reverse. Qed.

(** C10. On every queue [peek] returns what the next [dequeue] returns:
    the element at the front when the queue is not empty, the absent
    result when it is; and [peek] leaves the array, hence the contents and
    the length, as they were. *)
Theorem peek_agrees_with_dequeue queue :
  (Queue.peek queue).1 = (Queue.dequeue queue).1
  ∧ (Queue.peek queue).2 = queue
  ∧ Queue.length (Queue.peek queue).2 = Queue.length queue
  ∧ match Queue.contents queue with
    | x :: _ => (Queue.peek queue).1 = Some x
    | [] => Queue.isEmpty queue = true
            ∧ (Queue.peek queue).1 = None ∧ (Queue.dequeue queue).1 = None
    end.
Proof.
  destruct (dequeue_contents queue) as (queue' & Hd & _).
  rewrite peek_contents, Hd. cbn [fst snd].
  repeat split; try done.
  destruct (Queue.contents queue) eqn:E; [|done].
  by rewrite isEmpty_contents.
Qed.

Lemma contents_nil queue : Queue.contents queue = [] → queue = [].
Proof. intros H. by apply isEmpty_nil, isEmpty_contents. Qed.

Lemma contents_enqueues (items : list A) queue :
  Queue.contents (Queue.enqueues items queue) = Queue.contents queue ++ items.
Proof.
  revert queue. induction items as [|x items IH]; intros queue;
    cbn [Queue.enqueues].
  - by rewrite app_nil_r.
  - by rewrite IH, contents_enqueue, <-app_assoc.
Qed.

Lemma dequeues_contents (line : list A) queue :
  Queue.contents queue = line →
  Queue.dequeues (List.length line) queue = (Some <$> line, []).
Proof.
  revert queue. induction line as [|x line IH]; intros queue Hline; cbn.
  - by rewrite (contents_nil queue Hline).
  - destruct (dequeue_contents queue) as (queue' & -> & Hrest).
    rewrite Hline in Hrest |- *. cbn in Hrest |- *. by rewrite (IH queue').
Qed.

(** X4. First in, first out: after enqueuing [items] one by one, as many
    [dequeue] calls as there are items waiting return first the items that
    were already waiting and then [items], each in the order of arrival,
    and leave the queue empty. *)
Theorem queue_fifo (items : list A) queue :
  Queue.dequeues (List.length (Queue.contents queue) + List.length items)
                 (Queue.enqueues items queue)
  = (Some <$> (Queue.contents queue ++ items), Queue.createQueue).
Proof.
  rewrite <-length_app. apply dequeues_contents, contents_enqueues.
Qed.

(** X5. [enqueue] adds 1 to [length]; [dequeue] on an empty queue returns
    the absent result and leaves it empty; on a queue that is not empty it
    returns an item and takes 1 from [length]. *)
Theorem queue_length_accounting queue :
  (∀ item, Queue.length (Queue.enqueue item queue) = Queue.length queue + 1)
  ∧ (if Queue.isEmpty queue
     then Queue.dequeue queue = (None, queue) ∧ Queue.length queue = 0
     else ∃ item queue', Queue.dequeue queue = (Some item, queue')
                         ∧ Queue.length queue' = Queue.length queue - 1).
Proof.
  split.
  - intros item. unfold Queue.length, Queue.enqueue. cbn. lia.
  - destruct (Queue.isEmpty queue) eqn:E.
    + apply isEmpty_nil in E as ->. done.
    + destruct (snoc_cases queue) as [->|(l & x & ->)]; [done|].
      exists x, l. unfold Queue.dequeue. rewrite array_pop_snoc.
      split; [done|]. unfold Queue.length. rewrite length_app. cbn. lia.
Qed.

End queue.
End QueueFacts.

(* ===================================================================== *)
(** ** Properties of the stack *)
(* ===================================================================== *)

Module StackFacts.
Section stack.
Context {A : Type}.
Implicit Types (array : list A) (item : A).

Lemma pop_push item array :
  Stack.pop (Stack.push item array) = (Some item, array).
Proof. apply QueueFacts.array_pop_snoc. Qed.

Lemma peek_push item array :
  Stack.peek (Stack.push item array) = (Some item, Stack.push item array).
Proof.
  unfold Stack.peek, Stack.push. f_equal.
  apply QueueFacts.array_get_last_snoc.
Qed.

(** X1. Last in, first out: [pop] right after [push(item)] returns
    [item] and leaves the stack as it was before the push; the push had
    added 1 to [length] and made the stack not empty. *)
Theorem stack_push_pop item array :
  Stack.pop (Stack.push item array) = (Some item, array)
  ∧ Stack.length (Stack.push item array) = Stack.length array + 1
  ∧ Stack.isEmpty (Stack.push item array) = false.
Proof.
  split; [apply pop_push|].
  assert (Stack.length (Stack.push item array) = Stack.length array + 1) as Hlen.
  { unfold Stack.length, Stack.push. rewrite length_app. cbn. lia. }
  split; [done|]. unfold Stack.isEmpty. rewrite Hlen.
  apply bool_decide_eq_false_2. unfold Stack.length. lia.
Qed.

(** X2. [peek] returns what [pop] would return and leaves the stack as it
    is: the item pushed last, or the absent result on a stack that is
    empty, where [pop] too returns the absent result and changes nothing. *)
Theorem stack_peek array :
  (Stack.peek array).1 = (Stack.pop array).1
  ∧ (Stack.peek array).2 = array
  ∧ (Stack.peek array).1 = last array
  ∧ (if Stack.isEmpty array
     then Stack.pop array = (None, array) ∧ (Stack.peek array).1 = None
     else ∃ item array', Stack.pop array = (Some item, array')
                         ∧ Stack.length array' = Stack.length array - 1).
Proof.
  destruct (QueueFacts.snoc_cases array) as [->|(l & x & ->)].
  - done.
  - change (l ++ [x]) with (Stack.push x l).
    rewrite peek_push, pop_push. cbn [fst snd]. unfold Stack.push.
    rewrite last_snoc. repeat split.
    destruct (Stack.isEmpty (l ++ [x])) eqn:E.
    + apply bool_decide_eq_true in E. unfold Stack.length in E.
      rewrite length_app in E. cbn in E. lia.
    + exists x, l. split; [done|]. unfold Stack.length.
      rewrite length_app. cbn. lia.
Qed.

Lemma pushes_app (items : list A) array :
  Stack.pushes items array = array ++ items.
Proof.
  revert array. induction items as [|x items IH]; intros array; cbn.
  - by rewrite app_nil_r.
  - rewrite IH. unfold Stack.push. by rewrite <-app_assoc.
Qed.

Lemma pops_app (items : list A) array :
  Stack.pops (List.length items) (array ++ items)
  = (Some <$> reverse items, array).
Proof.
  induction items as [|x items IH] using rev_ind; [by rewrite app_nil_r|].
  rewrite length_app, Nat.add_comm. cbn. rewrite app_assoc.
  fold (Stack.push x (array ++ items)). rewrite pop_push, IH.
  by rewrite reverse_snoc.
Qed.

Lemma pops_empty (n : nat) :
  Stack.pops n (Stack.createStack (A := A))
  = (replicate n None, Stack.createStack).
Proof.
  unfold Stack.createStack. induction n as [|n IH]; [done|].
  cbn [Stack.pops replicate]. unfold Stack.pop at 1. cbn [Queue.array_pop].
  by rewrite IH.
Qed.

(** X3. After pushing [items] one by one, as many [pop] calls return the
    items in reverse order of their pushes and leave the stack as it was
    before them; further [pop] calls on a stack that has become empty
    return the absent result. *)
Theorem stack_lifo (items : list A) array (n : nat) :
  Stack.pops (List.length items) (Stack.pushes items array)
    = (Some <$> reverse items, array)
  ∧ Stack.pops n (Stack.createStack (A := A))
    = (replicate n None, Stack.createStack).
Proof.
  split; [rewrite pushes_app; apply pops_app|apply pops_empty].
Qed.

End stack.
End StackFacts.

(* ===================================================================== *)
(** ** Properties of the priority queue *)
(* ===================================================================== *)

Module PriorityQueueFacts.
Section priority_queue.
Context {A : Type}.
Implicit Types (q : PriorityQueue.t (A := A)) (x item : A).

Lemma enqueue_high item q :
  PriorityQueue.high (PriorityQueue.enqueue item (Some true) q)
    = PriorityQueue.high q ++ [item]
  ∧ PriorityQueue.low (PriorityQueue.enqueue item (Some true) q)
    = PriorityQueue.low q.
Proof. split; [apply QueueFacts.contents_enqueue|done]. Qed.

Lemma enqueue_low item (flag : option bool) q :
  flag = None ∨ flag = Some false →
  PriorityQueue.low (PriorityQueue.enqueue item flag q)
    = PriorityQueue.low q ++ [item]
  ∧ PriorityQueue.high (PriorityQueue.enqueue item flag q)
    = PriorityQueue.high q.
Proof. intros [-> | ->]; (split; [apply QueueFacts.contents_enqueue|done]). Qed.

Lemma dequeue_lanes q :
  ∃ q', PriorityQueue.dequeue q
          = (head (PriorityQueue.high q ++ PriorityQueue.low q), q')
        ∧ match PriorityQueue.high q with
          | _ :: rest => PriorityQueue.high q' = rest
                         ∧ PriorityQueue.low q' = PriorityQueue.low q
          | [] => PriorityQueue.high q' = []
                  ∧ PriorityQueue.low q' = tail (PriorityQueue.low q)
          end.
Proof.
  unfold PriorityQueue.dequeue, PriorityQueue.high, PriorityQueue.low.
  destruct q as [lo hi]; cbn [PriorityQueue.lowPriorityQueue
                              PriorityQueue.highPriorityQueue].
  destruct (Queue.isEmpty hi) eqn:E; cbn [negb].
  - apply QueueFacts.isEmpty_contents in E as E'. rewrite E'.
    destruct (QueueFacts.dequeue_contents lo) as (lo' & -> & Hlo).
    eexists; split; [done|]. by cbn.
  - destruct (QueueFacts.dequeue_contents hi) as (hi' & -> & Hhi).
    destruct (Queue.contents hi) as [|x rest] eqn:E'.
    { apply QueueFacts.isEmpty_contents in E'. congruence. }
    eexists; split; [done|]. by cbn.
Qed.

Lemma peek_lanes q :
  PriorityQueue.peek q
    = (head (PriorityQueue.high q ++ PriorityQueue.low q), q).
Proof.
  unfold PriorityQueue.peek, PriorityQueue.high, PriorityQueue.low.
  destruct q as [lo hi]; cbn [PriorityQueue.lowPriorityQueue
                              PriorityQueue.highPriorityQueue].
  rewrite !QueueFacts.peek_contents.
  destruct (Queue.isEmpty hi) eqn:E; cbn [negb].
  - apply QueueFacts.isEmpty_contents in E. by rewrite E.
  - destruct (Queue.contents hi) as [|x rest] eqn:E'; [|done].
    apply QueueFacts.isEmpty_contents in E'. congruence.
Qed.

(** C8. In every state of the priority queue, with [high] and [low] the
    items waiting in each lane in arrival order: [enqueue] appends to the
    lane it is routed to; [peek] returns the first item of [high] when
    there is one and else the first of [low], changing nothing; [dequeue]
    returns that same item and removes it from its lane only; [length] is
    the sum of the lanes' lengths; [isEmpty] holds exactly when both lanes
    are empty. *)
Theorem two_lane_priority q :
  (∀ item, PriorityQueue.high (PriorityQueue.enqueue item (Some true) q)
             = PriorityQueue.high q ++ [item]
           ∧ PriorityQueue.low (PriorityQueue.enqueue item (Some true) q)
             = PriorityQueue.low q
           ∧ PriorityQueue.low (PriorityQueue.enqueue item (Some false) q)
             = PriorityQueue.low q ++ [item]
           ∧ PriorityQueue.high (PriorityQueue.enqueue item (Some false) q)
             = PriorityQueue.high q
           ∧ PriorityQueue.enqueue item None q
             = PriorityQueue.enqueue item (Some false) q)
  ∧ match PriorityQueue.high q with
    | x :: rest =>
        PriorityQueue.peek q = (Some x, q)
        ∧ ∃ q', PriorityQueue.dequeue q = (Some x, q')
                ∧ PriorityQueue.high q' = rest
                ∧ PriorityQueue.low q' = PriorityQueue.low q
    | [] =>
        PriorityQueue.peek q = (head (PriorityQueue.low q), q)
        ∧ ∃ q', PriorityQueue.dequeue q = (head (PriorityQueue.low q), q')
                ∧ PriorityQueue.high q' = []
                ∧ PriorityQueue.low q' = tail (PriorityQueue.low q)
    end
  ∧ PriorityQueue.length q
      = Z.of_nat (List.length (PriorityQueue.high q))
        + Z.of_nat (List.length (PriorityQueue.low q))
  ∧ (PriorityQueue.isEmpty q = true
     ↔ PriorityQueue.high q = [] ∧ PriorityQueue.low q = []).
Proof.
  split; [|split; [|split]].
  - intros item.
    destruct (enqueue_high item q) as [-> ->].
    destruct (enqueue_low item (Some false) q) as [-> ->]; [by right|].
    done.
  - rewrite peek_lanes.
    destruct (dequeue_lanes q) as (q' & -> & Hq').
    destruct (PriorityQueue.high q) as [|x rest];
      (split; [done|]); exists q'; by destruct Hq'.
  - unfold PriorityQueue.length, PriorityQueue.high, PriorityQueue.low.
    by rewrite !QueueFacts.length_contents.
  - unfold PriorityQueue.isEmpty, PriorityQueue.high, PriorityQueue.low.
    rewrite andb_true_iff. by rewrite !QueueFacts.isEmpty_contents.
Qed.

Lemma lanes_nil q :
  PriorityQueue.high q = [] → PriorityQueue.low q = [] →
  q = PriorityQueue.createPriorityQueue.
Proof.
  destruct q as [lo hi]. unfold PriorityQueue.high, PriorityQueue.low. cbn.
  by intros ->%QueueFacts.contents_nil ->%QueueFacts.contents_nil.
Qed.

Lemma dequeues_lanes (highs lows : list A) q :
  PriorityQueue.high q = highs → PriorityQueue.low q = lows →
  PriorityQueue.dequeues (List.length highs + List.length lows) q
  = (Some <$> (highs ++ lows), PriorityQueue.createPriorityQueue).
Proof.
  revert q. induction highs as [|x highs IHh]; intros q Hh Hl.
  - cbn. revert q Hh Hl. induction lows as [|y lows IHl]; intros q Hh Hl; cbn.
    + by rewrite (lanes_nil q).
    + destruct (dequeue_lanes q) as (q' & -> & Hq').
      rewrite Hh, Hl in Hq' |- *. cbn in Hq' |- *. destruct Hq' as [Hh' Hl'].
      by rewrite (IHl q').
  - cbn. destruct (dequeue_lanes q) as (q' & -> & Hq').
    rewrite Hh in Hq' |- *. cbn. destruct Hq' as [Hh' Hl'].
    rewrite (IHh q') by congruence. done.
Qed.

(** X6. Draining a priority queue: as many [dequeue] calls as there are
    items waiting return every high-priority item, in order of arrival,
    before any low-priority item, then the low-priority items in order of
    arrival, and leave both lanes empty. *)
Theorem priority_queue_drain q :
  PriorityQueue.dequeues
    (List.length (PriorityQueue.high q) + List.length (PriorityQueue.low q)) q
  = (Some <$> (PriorityQueue.high q ++ PriorityQueue.low q),
     PriorityQueue.createPriorityQueue).
Proof. by apply dequeues_lanes. Qed.

(** X7. [enqueue], with or without the priority flag, adds 1 to [length]
    and leaves the priority queue not empty; [dequeue] and [peek] on an
    empty priority queue return the absent result and change nothing;
    [dequeue] on one that is not empty returns an item and takes 1 from
    [length]. *)
Theorem priority_queue_length_accounting q :
  (∀ item flag,
     PriorityQueue.length (PriorityQueue.enqueue item flag q)
       = PriorityQueue.length q + 1
     ∧ PriorityQueue.isEmpty (PriorityQueue.enqueue item flag q) = false)
  ∧ (if PriorityQueue.isEmpty q
     then PriorityQueue.dequeue q = (None, q)
          ∧ PriorityQueue.peek q = (None, q)
          ∧ PriorityQueue.length q = 0
     else ∃ item q', PriorityQueue.dequeue q = (Some item, q')
                     ∧ PriorityQueue.length q' = PriorityQueue.length q - 1).
Proof.
  split.
  - intros item flag. destruct q as [lo hi].
    unfold PriorityQueue.length, PriorityQueue.isEmpty, PriorityQueue.enqueue.
    destruct (default false flag); cbn;
      unfold Queue.length, Queue.isEmpty, Queue.length, Queue.enqueue; cbn.
    + split; [lia|]. rewrite bool_decide_eq_false_2 by lia. done.
    + split; [lia|]. rewrite (bool_decide_eq_false_2 (Z.of_nat (S _) = 0)) by lia.
      apply andb_false_r.
  - destruct (PriorityQueue.isEmpty q) eqn:E.
    + apply andb_true_iff in E as [Hhi Hlo].
      apply QueueFacts.isEmpty_nil in Hhi, Hlo. destruct q as [lo hi].
      cbn in Hhi, Hlo. subst. done.
    + destruct (dequeue_lanes q) as (q' & Hdeq & Hq').
      assert (PriorityQueue.length q
              = Z.of_nat (List.length (PriorityQueue.high q ++ PriorityQueue.low q)))
        as Hlen.
      { unfold PriorityQueue.length, PriorityQueue.high, PriorityQueue.low.
        rewrite !QueueFacts.length_contents, length_app. lia. }
      assert (PriorityQueue.length q'
              = Z.of_nat (List.length (PriorityQueue.high q' ++ PriorityQueue.low q')))
        as Hlen'.
      { unfold PriorityQueue.length, PriorityQueue.high, PriorityQueue.low.
        rewrite !QueueFacts.length_contents, length_app. lia. }
      destruct (PriorityQueue.high q) as [|x rest] eqn:Hh.
      * destruct (PriorityQueue.low q) as [|y rest] eqn:Hl.
        { rewrite (lanes_nil q Hh Hl) in E. done. }
        destruct Hq' as [Hh' Hl']. exists y, q'. split; [done|].
        rewrite Hlen, Hlen', Hh', Hl'. cbn. lia.
      * destruct Hq' as [Hh' Hl']. exists x, q'. split; [done|].
        rewrite Hlen, Hlen', Hh', Hl'. cbn. rewrite !length_app. lia.
Qed.

End priority_queue.
End PriorityQueueFacts.

(* ===================================================================== *)
(** ** Properties of the linked list *)
(* ===================================================================== *)

Module LinkedListFacts.
Import LinkedList.

(** Closed goals about the example lists are settled by evaluation. *)
Ltac concrete_chain :=
  unfold chain; cbn [lseg];
  repeat (split; [reflexivity|]; eexists; split; [reflexivity|]);
  reflexivity.
Ltac concrete_list :=
  split; [concrete_chain|];
  split; [compute_done|];
  split; reflexivity.

Section examples.
Import Examples.

Lemma pushes_abc : pushes ["a"; "b"; "c"] createLinkedList = Ret list_abc.
Proof. vm_compute. reflexivity. Qed.

Lemma pushes_ab : pushes ["a"; "b"] createLinkedList = Ret list_ab.
Proof. vm_compute. reflexivity. Qed.

Lemma pushes_a : pushes ["a"] createLinkedList = Ret list_a.
Proof. vm_compute. reflexivity. Qed.

Lemma is_list_abc : is_list list_abc nodes_abc.
Proof. concrete_list. Defined.

Lemma is_list_ab : is_list list_ab nodes_ab.
Proof. concrete_list. Defined.

Lemma is_list_a : is_list list_a nodes_a.
Proof. concrete_list. Defined.
End examples.

Section chains.
Context {T : Type}.
Implicit Types (h : gmap loc (INode (T := T))) (p q : option loc)
  (nodes front back : list (loc * T)) (this : t (T := T)).

Lemma bind_ret {R S} (r : R) (k : R → outcome S) : (Ret r ≫= k) = k r.
Proof. done. Qed.

Lemma lseg_app h p front back q :
  lseg h p (front ++ back) q ↔ ∃ m, lseg h p front m ∧ lseg h m back q.
Proof.
  revert p. induction front as [|[l v] front IH]; intros p; cbn.
  - split; [intros ?; by exists p|by intros (m & -> & ?)].
  - split.
    + intros (-> & nx & Hl & Hrest). apply IH in Hrest as (m & ? & ?).
      exists m. eauto 10.
    + intros (m & (-> & nx & Hl & Hfront) & Hback).
      split; [done|]. exists nx. split; [done|]. apply IH. eauto.
Qed.

Lemma lseg_insert_notin h p nodes q l nd :
  l ∉ nodes.*1 → lseg h p nodes q → lseg (<[l := nd]> h) p nodes q.
Proof.
  revert p. induction nodes as [|[l' v] nodes IH]; intros p; cbn; [done|].
  rewrite not_elem_of_cons. intros [Hne Hnotin] (-> & nx & Hl & Hrest).
  split; [done|]. exists nx. rewrite lookup_insert_ne by done. eauto.
Qed.

Lemma lseg_allocated h p nodes q l :
  lseg h p nodes q → l ∈ nodes.*1 → is_Some (h !! l).
Proof.
  revert p. induction nodes as [|[l' v] nodes IH]; intros p; cbn.
  - intros _ ?%elem_of_nil. done.
  - intros (-> & nx & Hl & Hrest) [->|?]%elem_of_cons; eauto.
Qed.

Lemma lseg_fresh h p nodes q : lseg h p nodes q → fresh (dom h) ∉ nodes.*1.
Proof.
  intros Hseg Hin. eapply lseg_allocated in Hin; [|done].
  apply elem_of_dom in Hin. by apply is_fresh in Hin.
Qed.

(** The start of a chain is its first node. *)
Lemma lseg_start h p nodes : lseg h p nodes None → p = nodes.*1 !! 0%nat.
Proof. destruct nodes as [|[l v] nodes]; cbn; [done|by intros [-> _]]. Qed.

Lemma lseg_node h p nodes q (i : nat) l v :
  lseg h p nodes q → nodes !! i = Some (l, v) →
  ∃ nx, h !! l = Some {| value := v; next := nx |}.
Proof.
  revert p i. induction nodes as [|[l' v'] nodes IH]; intros p i; cbn; [done|].
  intros (-> & nx & Hl & Hrest). destruct i as [|i]; cbn.
  - intros [= -> ->]. eauto.
  - eauto.
Qed.

(** [n] steps along a chain of at least [n] nodes reach the node at
    position [n], and [null] after the last one. *)
Lemma walk_chain h p nodes (n : nat) :
  lseg h p nodes None → (n ≤ List.length nodes)%nat →
  walk h n p = Ret (nodes.*1 !! n).
Proof.
  revert p n. induction nodes as [|[l v] nodes IH]; intros p n; cbn.
  - intros -> ?. by replace n with 0%nat by lia.
  - intros (-> & nx & Hl & Hrest) Hn. destruct n as [|n]; [done|].
    cbn. rewrite Hl. cbn. apply IH; [done|lia].
Qed.

Lemma walk_previous_chain h p nodes (n : nat) previous :
  lseg h p nodes None → (n ≤ List.length nodes)%nat →
  walk_previous h n previous p
    = Ret (match n with O => previous | S n' => nodes.*1 !! n' end,
           nodes.*1 !! n).
Proof.
  revert p n previous.
  induction nodes as [|[l v] nodes IH]; intros p n previous; cbn.
  - intros -> ?. by replace n with 0%nat by lia.
  - intros (-> & nx & Hl & Hrest) Hn. destruct n as [|n]; [done|].
    cbn. rewrite Hl. cbn. rewrite (IH nx n (Some l)) by (done || lia).
    by destruct n.
Qed.

(** The loop of [pop] stops at the node before the tail. *)
Lemma find_penultimate_chain h p front pl pv tl tv (fuel : nat) :
  lseg h p (front ++ [(pl, pv); (tl, tv)]) None →
  NoDup (front ++ [(pl, pv); (tl, tv)]).*1 →
  (List.length front < fuel)%nat →
  find_penultimate fuel h (Some tl) p = Ret (Some pl).
Proof.
  revert p fuel. induction front as [|[l v] front IH]; intros p fuel; cbn.
  - intros (-> & nx & Hl & -> & _) _ Hfuel.
    destruct fuel as [|fuel]; [lia|]. cbn. rewrite Hl. cbn.
    by rewrite decide_True.
  - intros (-> & nx & Hl & Hrest) [Hl_notin Hnodup]%NoDup_cons Hfuel.
    destruct fuel as [|fuel]; [lia|]. cbn. rewrite Hl. cbn.
    rewrite decide_False; [apply IH; (done || lia)|].
    apply lseg_start in Hrest as ->. intros Heq.
    apply NoDup_lookup with (i := 0%nat) (j := S (List.length front)) (x := tl)
      in Hnodup; [lia|done|].
    rewrite fmap_app, lookup_app_r; rewrite length_fmap; [|lia].
    by replace (S (List.length front) - List.length front)%nat with 1%nat by lia.
Qed.

(** The loop of [print] gathers the values of the chain, in order. *)
Lemma collect_chain h p nodes (values : list T) (fuel : nat) :
  lseg h p nodes None → (List.length nodes < fuel)%nat →
  collect fuel h values p = Ret (values ++ nodes.*2).
Proof.
  revert p values fuel.
  induction nodes as [|[l v] nodes IH]; intros p values fuel; cbn.
  - intros -> ?. destruct fuel; [lia|]. cbn. by rewrite app_nil_r.
  - intros (-> & nx & Hl & Hrest) Hfuel.
    destruct fuel as [|fuel]; [lia|]. cbn. rewrite Hl. cbn.
    rewrite (IH nx (values ++ [v]) fuel) by (done || lia).
    by rewrite <-app_assoc.
Qed.

Lemma nodes_snoc_cases nodes : nodes = [] ∨ ∃ front l v, nodes = front ++ [(l, v)].
Proof.
  induction nodes as [|[l v] front _] using rev_ind; [by left|right; eauto].
Qed.

Lemma last_fst_snoc front (l : loc) (v : T) :
  last (front ++ [(l, v)]).*1 = Some l.
Proof. rewrite fmap_app. apply last_snoc. Qed.

(** What a list's bookkeeping looks like. *)
Lemma is_list_nil this :
  is_list this [] → head this = None ∧ tail this = None ∧ length this = 0.
Proof. by intros (Hc & _ & Ht & Hlen). Qed.

Lemma is_list_snoc this front l v :
  is_list this (front ++ [(l, v)]) →
  (∃ l0, head this = Some l0 ∧ (front ++ [(l, v)]).*1 !! 0%nat = Some l0)
  ∧ tail this = Some l
  ∧ heap this !! l = Some {| value := v; next := None |}
  ∧ lseg (heap this) (head this) front (Some l)
  ∧ (l ∉ front.*1)
  ∧ length this = Z.of_nat (List.length front) + 1.
Proof.
  intros (Hc & Hnd & Ht & Hlen).
  rewrite last_fst_snoc in Ht. rewrite length_app in Hlen. cbn in Hlen.
  apply lseg_start in Hc as Hhd.
  apply lseg_app in Hc as (m & Hfront & -> & nx & Hl & ->).
  rewrite fmap_app in Hnd. apply NoDup_app in Hnd as (_ & Hnotin & _).
  split; [|repeat split; try done; try lia].
  - rewrite Hhd. destruct front as [|[l0 v0] front]; cbn; eauto.
  - intros Hin. apply (Hnotin l Hin). cbn. left.
Qed.

(** [push] on a list appends a new node holding the value. *)
Lemma push_is_list this nodes v :
  is_list this nodes →
  ∃ this', push v this = Ret (fresh (dom (heap this)), this')
           ∧ is_list this' (nodes ++ [(fresh (dom (heap this)), v)])
           ∧ length this' = length this + 1.
Proof.
  intros Hlist. set (l := fresh (dom (heap this))).
  assert (l ∉ nodes.*1) as Hfresh by (destruct Hlist; by eapply lseg_fresh).
  assert (NoDup (nodes ++ [(l, v)]).*1) as Hnd'.
  { destruct Hlist as (_ & Hnd & _). rewrite fmap_app. apply NoDup_app.
    split; [done|]. split; [|apply NoDup_singleton].
    intros x Hx ->%list_elem_of_singleton. done. }
  unfold push, createNode. fold l.
  destruct (nodes_snoc_cases nodes) as [->|(front & tl & tv & ->)].
  - apply is_list_nil in Hlist as (Hhd & Htl & Hlen).
    rewrite decide_True by done. eexists. split; [done|]. split; [|done].
    repeat split; cbn; [|done|lia].
    exists None. by rewrite lookup_insert_eq.
  - apply is_list_snoc in Hlist
      as ((l0 & Hhd & _) & Htl & Hlast & Hfront & Hnotin & Hlen).
    rewrite decide_False by (by rewrite Hhd).
    assert (tl ≠ l) as Hne.
    { intros ->. apply (is_fresh (dom (heap this))). apply elem_of_dom. eauto. }
    rewrite Htl. cbn. rewrite lookup_insert_ne, Hlast by done. cbn.
    eexists. split; [done|]. split; [|done].
    repeat split; cbn; [|done|by rewrite last_fst_snoc|rewrite !length_app; cbn; lia].
    unfold chain. cbn. rewrite <-app_assoc. apply lseg_app. exists (Some tl). split.
    + apply lseg_insert_notin; [done|]. apply lseg_insert_notin; [|done].
      intros Hin. apply Hfresh. rewrite fmap_app. apply elem_of_app. by left.
    + cbn. split; [done|]. eexists. rewrite lookup_insert_eq. split; [done|].
      split; [done|]. exists None.
      by rewrite lookup_insert_ne, lookup_insert_eq.
Qed.

(** Any number of pushes on a new list succeed and build a list of that
    many nodes holding the values in order. *)
Lemma pushes_is_list values this nodes :
  is_list this nodes →
  ∃ this' added, pushes values this = Ret this'
                 ∧ is_list this' (nodes ++ added)
                 ∧ added.*2 = values
                 ∧ length this' = length this + Z.of_nat (List.length values).
Proof.
  revert this nodes. induction values as [|v values IH]; intros this nodes Hl.
  - exists this, []. rewrite app_nil_r. cbn.
    split; [done|]. split; [done|]. split; [done|lia].
  - destruct (push_is_list this nodes v Hl) as (this1 & Hpush & Hl1 & Hlen1).
    destruct (IH _ _ Hl1) as (this' & added & Hrun & Hl' & Hvals & Hlen').
    exists this', ((fresh (dom (heap this)), v) :: added).
    cbn [pushes]. rewrite Hpush. cbn. rewrite Hrun.
    rewrite <-app_assoc in Hl'. cbn in Hl' |- *.
    split; [done|]. split; [done|]. split; [by f_equal|lia].
Qed.

Lemma is_list_create : is_list (T := T) createLinkedList [].
Proof. repeat split. apply NoDup_nil_2. Qed.

(** A list satisfies the invariants I1, I2 and I4. *)
Lemma is_list_invariants this nodes :
  is_list this nodes → I1 this ∧ I2 this ∧ I4 this.
Proof.
  intros Hlist.
  destruct (nodes_snoc_cases nodes) as [->|(front & tl & tv & ->)].
  - apply is_list_nil in Hlist as (Hhd & Htl & Hlen).
    unfold I1, I2, I4. rewrite Hhd, Htl, Hlen. by repeat split.
  - apply is_list_snoc in Hlist
      as ((l0 & Hhd & Hl0) & Htl & Hlast & Hfront & Hnotin & Hlen).
    unfold I1, I2, I4. rewrite Hhd, Htl, Hlen. repeat split; try done; try lia.
    + intros Hone. destruct front as [|]; [|cbn in Hone; lia].
      cbn in Hl0. congruence.
    + intros l [= <-]. eauto.
Qed.

Lemma is_list_snoc2 this front pl pv tl tv :
  is_list this (front ++ [(pl, pv); (tl, tv)]) →
  (∃ l0, head this = Some l0 ∧ l0 ≠ tl)
  ∧ tail this = Some tl
  ∧ heap this !! pl = Some {| value := pv; next := Some tl |}
  ∧ heap this !! tl = Some {| value := tv; next := None |}
  ∧ lseg (heap this) (head this) front (Some pl)
  ∧ NoDup (front ++ [(pl, pv)]).*1
  ∧ (tl ∉ (front ++ [(pl, pv)]).*1)
  ∧ length this = Z.of_nat (List.length front) + 2.
Proof.
  intros Hlist. pose proof Hlist as (Hc & Hnd & _).
  replace (front ++ [(pl, pv); (tl, tv)])
    with ((front ++ [(pl, pv)]) ++ [(tl, tv)]) in * by by rewrite <-app_assoc.
  apply is_list_snoc in Hlist
    as ((l0 & Hhd & Hl0) & Htl & Hlast & Hfront & Hnotin & Hlen).
  apply lseg_app in Hfront as (m & Hfront & -> & nx & Hpl & ->).
  rewrite length_app in Hlen. cbn in Hlen.
  rewrite (fmap_app _ (front ++ [(pl, pv)])) in Hnd.
  apply NoDup_app in Hnd as (Hnd & _ & _).
  repeat split; try done; try lia.
  exists l0. split; [done|]. intros ->. apply Hnotin.
  rewrite fmap_app, lookup_app_l in Hl0
    by (rewrite length_fmap, length_app; cbn; lia).
  by apply list_elem_of_lookup_2 in Hl0.
Qed.

(** C5. [pop] on a linked list: on the empty list it returns none and
    changes nothing; on a list of one node it returns that node and
    leaves [head] and [tail] none and [length] 0; on a list of two or more
    nodes (given fuel for its walk to the node before the tail) it returns
    the tail node, sets the [next] of the node before it to none, makes
    that node the tail and takes 1 from [length], so that the list then
    holds the nodes before the removed one. *)
Theorem pop_spec this nodes (fuel : nat) :
  is_list this nodes →
  (nodes = [] → pop fuel this = Ret (None, this))
  ∧ (∀ l v, nodes = [(l, v)] →
       pop fuel this
         = Ret (Some l, {| heap := heap this; head := None; tail := None;
                           length := 0 |}))
  ∧ (∀ front pl pv tl tv,
       nodes = front ++ [(pl, pv); (tl, tv)] →
       (List.length front < fuel)%nat →
       let this' := {| heap := <[pl := {| value := pv; next := None |}]> (heap this);
                       head := head this; tail := Some pl;
                       length := length this - 1 |} in
       tail this = Some tl
       ∧ pop fuel this = Ret (Some tl, this')
       ∧ is_list this' (front ++ [(pl, pv)])).
Proof.
  intros Hlist. split; [|split].
  - intros ->. apply is_list_nil in Hlist as (_ & _ & Hlen).
    unfold pop, isEmpty. by rewrite bool_decide_eq_true_2.
  - intros l v ->. destruct Hlist as ((Hhd & nx & Hl & Hnx) & _ & Htl & Hlen).
    cbn in *. unfold pop, isEmpty.
    rewrite bool_decide_eq_false_2 by lia.
    rewrite decide_True by congruence. rewrite Htl, Hlen. done.
  - intros front pl pv tl tv -> Hfuel this'.
    pose proof Hlist as (Hc & Hnd & _).
    apply is_list_snoc2 in Hlist
      as ((l0 & Hhd & Hne) & Htl & Hpl & Htlnode & Hfront & Hnd' & Hnotin & Hlen).
    split; [done|]. split.
    + unfold pop, isEmpty. rewrite bool_decide_eq_false_2 by lia.
      rewrite decide_False by (rewrite Hhd, Htl; congruence).
      rewrite Htl.
      rewrite (find_penultimate_chain _ _ front pl pv tl tv) by done.
      cbn. rewrite Hpl. cbn. by rewrite <-Htl.
    + split; [|split; [done|split]]; cbn.
      * apply lseg_app. exists (Some pl). split.
        -- apply lseg_insert_notin; [|done].
           rewrite fmap_app in Hnd'. apply NoDup_app in Hnd' as (_ & Hnot & _).
           intros Hin. apply (Hnot pl Hin). cbn. left.
        -- cbn. split; [done|]. exists None. by rewrite lookup_insert_eq.
      * by rewrite last_fst_snoc.
      * rewrite length_app. cbn. lia.
Qed.

(** Past its guard, [get] walks the chain. *)
Lemma get_chain this nodes index :
  chain this nodes → length this = Z.of_nat (List.length nodes) →
  0 ≤ index ≤ length this →
  get index this = Ret (nodes.*1 !! Z.to_nat index, this).
Proof.
  intros Hc Hlen Hrange. unfold get.
  rewrite (bool_decide_eq_false_2 (index < 0)) by lia.
  rewrite (bool_decide_eq_false_2 (index > _)) by lia. cbn [orb].
  case_bool_decide as H0.
  - subst index. by rewrite (lseg_start _ _ _ Hc).
  - by rewrite (walk_chain _ _ nodes) by (done || lia).
Qed.

(** C6. On a linked list (the chain from [head] is [nodes], [length]
    their number) [get] changes nothing; it returns none for every index
    below 0 and for every index from [length] on, and for an index in
    range the node at that position of the chain, the one reached from
    [head] by that many [next] steps. *)
Theorem get_spec this nodes index :
  chain this nodes → length this = Z.of_nat (List.length nodes) →
  (index < 0 ∨ length this ≤ index → get index this = Ret (None, this))
  ∧ (0 ≤ index < length this →
     ∃ l v, nodes !! Z.to_nat index = Some (l, v)
            ∧ walk (heap this) (Z.to_nat index) (head this) = Ret (Some l)
            ∧ get index this = Ret (Some l, this)).
Proof.
  intros Hc Hlen. split.
  - intros [Hneg|Hge].
    + unfold get. by rewrite (bool_decide_eq_true_2 (index < 0)).
    + destruct (decide (index = length this)) as [->|Hne].
      * rewrite (get_chain this nodes) by (done || lia).
        rewrite lookup_ge_None_2; [done|]. rewrite length_fmap. lia.
      * unfold get. rewrite (bool_decide_eq_true_2 (index > _)) by lia.
        by rewrite orb_true_r.
  - intros Hrange.
    destruct (lookup_lt_is_Some_2 nodes (Z.to_nat index)) as [[l v] Hlv]; [lia|].
    exists l, v. split; [done|].
    rewrite (get_chain this nodes), (walk_chain _ _ nodes) by (done || lia).
    by rewrite list_lookup_fmap, Hlv.
Qed.

Lemma print_chain (show : T → string) this nodes (fuel : nat) :
  chain this nodes → (List.length nodes < fuel)%nat →
  print show fuel this = Ret (join " => " (show <$> nodes.*2), this).
Proof. intros Hc Hfuel. unfold print. by rewrite (collect_chain _ _ nodes). Qed.

(** C9. On a linked list whose chain from [head] is [nodes], [print]
    (given fuel for its walk) returns the values of the chain in order,
    joined by [" => "], and changes nothing; a second call right after
    the first returns the same string. *)
Theorem print_spec (show : T → string) this nodes (fuel : nat) :
  chain this nodes → (List.length nodes < fuel)%nat →
  let s := join " => " (show <$> nodes.*2) in
  print show fuel this = Ret (s, this)
  ∧ ('(s1, this1) ← print show fuel this;
     '(s2, this2) ← print show fuel this1;
     Ret (s1, s2, this2)) = Ret (s, s, this).
Proof.
  intros Hc Hfuel s.
  pose proof (print_chain show this nodes fuel Hc Hfuel) as Hprint.
  split; [done|]. rewrite Hprint. cbn. by rewrite Hprint.
Qed.

(** *** [delete] *)

Lemma delete_guard this index :
  index < 0 ∨ length this < index → delete index this = Ret (None, this).
Proof.
  intros [?|?]; unfold delete.
  - by rewrite (bool_decide_eq_true_2 (index < 0)).
  - rewrite (bool_decide_eq_true_2 (index > _)) by lia. by rewrite orb_true_r.
Qed.

(** At [index == length], which the guard lets through, the walk ends on
    [null] and reading its [next] raises. *)
Lemma delete_at_length this nodes :
  chain this nodes → length this = Z.of_nat (List.length nodes) →
  delete (length this) this = TypeError.
Proof.
  intros Hc Hlen. unfold delete.
  rewrite (bool_decide_eq_false_2 (_ < 0)) by lia.
  rewrite (bool_decide_eq_false_2 (_ > _)) by lia. cbn [orb].
  case_bool_decide as H0.
  - destruct nodes; [|cbn in Hlen; lia]. unfold chain in Hc. cbn in Hc.
    by rewrite Hc.
  - rewrite (walk_previous_chain _ _ nodes) by (done || lia). cbn.
    rewrite lookup_ge_None_2; [done|]. rewrite length_fmap. lia.
Qed.

(** [delete(0)] moves [head] on and takes 1 from [length]; it does not
    touch [tail]. *)
Lemma delete_head this l v nodes :
  chain this ((l, v) :: nodes) → 0 ≤ length this →
  delete 0 this
    = Ret (Some l, {| heap := heap this; head := nodes.*1 !! 0%nat;
                      tail := tail this; length := length this - 1 |}).
Proof.
  intros (Hhd & nx & Hl & Hrest) Hlen. unfold delete.
  rewrite (bool_decide_eq_false_2 (_ < 0)) by lia.
  rewrite (bool_decide_eq_false_2 (_ > _)) by lia. cbn.
  rewrite Hhd. cbn. rewrite Hl. cbn. by rewrite (lseg_start _ _ _ Hrest).
Qed.

(** [delete] at an index after 0 links the node before to the node
    after; it does not touch [tail]. *)
Lemma delete_inner this front pl pv dl dv back :
  chain this (front ++ (pl, pv) :: (dl, dv) :: back) →
  Z.of_nat (List.length front) + 1 ≤ length this →
  delete (Z.of_nat (List.length front) + 1) this
    = Ret (Some dl,
           {| heap := <[pl := {| value := pv; next := back.*1 !! 0%nat |}]>
                        (heap this);
              head := head this; tail := tail this;
              length := length this - 1 |}).
Proof.
  intros Hc Hlen. pose proof Hc as Hc'.
  apply lseg_app in Hc'
    as (m & Hfront & -> & nx & Hpl & -> & nx' & Hdl & Hback).
  apply lseg_start in Hback as ->.
  unfold delete.
  rewrite (bool_decide_eq_false_2 (_ < 0)) by lia.
  rewrite (bool_decide_eq_false_2 (_ > _)) by lia.
  rewrite (bool_decide_eq_false_2 (_ = 0)) by lia. cbn [orb].
  replace (Z.to_nat (Z.of_nat (List.length front) + 1))
    with (S (List.length front)) by lia.
  rewrite (walk_previous_chain _ _ _ _ _ Hc)
    by (rewrite length_app; cbn; lia).
  rewrite !fmap_app, lookup_app_r by (rewrite length_fmap; lia).
  rewrite lookup_app_r by (rewrite length_fmap; lia).
  rewrite length_fmap.
  replace (S (List.length front) - List.length front)%nat with 1%nat by lia.
  rewrite Nat.sub_diag. cbn. rewrite Hdl. cbn. by rewrite Hpl.
Qed.

(** C2. On a linked list, [delete] returns none and changes nothing for
    every index below 0 and every index above [length]; at
    [index == length], which its guard [index > this.length] admits, it
    raises [TypeError] instead of returning none. *)
Theorem delete_out_of_range this nodes :
  chain this nodes → length this = Z.of_nat (List.length nodes) →
  (∀ index, index < 0 ∨ length this < index →
            delete index this = Ret (None, this))
  ∧ delete (length this) this = TypeError.
Proof.
  intros Hc Hlen. split; [intros index; apply delete_guard|].
  by apply (delete_at_length this nodes).
Qed.

Lemma delete_singleton this l v :
  is_list this [(l, v)] →
  delete 0 this
    = Ret (Some l, {| heap := heap this; head := None; tail := Some l;
                      length := 0 |}).
Proof.
  intros (Hc & _ & Htl & Hlen). cbn in Htl, Hlen.
  rewrite (delete_head this l v []) by (done || lia).
  by rewrite Htl, Hlen.
Qed.

(** C3. On a linked list of one node, [delete(0)] returns that node,
    sets [head] to none and [length] to 0, and leaves [tail] on the
    removed node: the resulting state breaks I1. *)
Theorem delete_sole_node this l v :
  is_list this [(l, v)] →
  let this' := {| heap := heap this; head := None; tail := Some l;
                  length := 0 |} in
  delete 0 this = Ret (Some l, this') ∧ ¬ I1 this'.
Proof.
  intros Hlist this'. split; [by apply (delete_singleton _ _ v)|].
  intros [_ [Hnone _]]. cbn in Hnone. by specialize (Hnone eq_refl).
Qed.

(** C4. On a linked list, [delete] at an index after 0 returns the node
    at that index and sets the [next] of the node before it to the node
    after it, changing nothing else but [length]; so when the removed node
    is the tail, [tail] still is the removed node and not the node before
    it. *)
Theorem delete_after_head this front pl pv dl dv back :
  is_list this (front ++ (pl, pv) :: (dl, dv) :: back) →
  let this' :=
    {| heap := <[pl := {| value := pv; next := back.*1 !! 0%nat |}]> (heap this);
       head := head this; tail := tail this; length := length this - 1 |} in
  delete (Z.of_nat (List.length front) + 1) this = Ret (Some dl, this')
  ∧ (back = [] → tail this = Some dl ∧ tail this' = Some dl ∧ dl ≠ pl).
Proof.
  intros Hlist this'. pose proof Hlist as (Hc & _ & _ & Hlen).
  split.
  { apply (delete_inner _ _ _ _ _ dv); [done|].
    rewrite Hlen, length_app. cbn. lia. }
  intros ->. apply is_list_snoc2 in Hlist as (_ & Htl & _ & _ & _ & _ & Hn & _).
  repeat split; [done..|]. intros ->. apply Hn.
  rewrite fmap_app. apply elem_of_app. right. cbn. left.
Qed.

(** C1. After [push(v)] on a new list and then [delete(0)], both of
    which return the pushed node, the list is in a reachable state where
    [length] is 0 and [head] is none while [tail] still is the removed
    node: I1 does not hold after that call. *)
Theorem delete_breaks_invariant (v : T) :
  ∃ node this1 this2,
    push v createLinkedList = Ret (node, this1)
    ∧ is_list this1 [(node, v)]
    ∧ delete 0 this1 = Ret (Some node, this2)
    ∧ reachable this2
    ∧ length this2 = 0 ∧ head this2 = None ∧ tail this2 = Some node
    ∧ ¬ I1 this2.
Proof.
  destruct (push_is_list createLinkedList [] v is_list_create)
    as (this1 & Hpush & Hlist & _).
  pose proof (delete_singleton _ _ v Hlist) as Hdel.
  eexists _, this1, _. split; [exact Hpush|]. split; [exact Hlist|].
  split; [exact Hdel|]. split.
  - eapply rtc_l; [exists (Push v); cbn [invoke]; by rewrite Hpush|].
    apply rtc_once. exists (Delete 0). cbn [invoke]. by rewrite Hdel.
  - cbn. repeat split.
    intros [_ [Hnone _]]. cbn in Hnone. by specialize (Hnone eq_refl).
Qed.

(** *** Length accounting *)

Lemma bind_Ret_inv {R S} (m : outcome R) (k : R → outcome S) s :
  (m ≫= k) = Ret s → ∃ r, m = Ret r ∧ k r = Ret s.
Proof. destruct m; cbn; try done. eauto. Qed.

Lemma pop_length this this' (fuel : nat) node :
  pop fuel this = Ret (Some node, this') → length this' = length this - 1.
Proof.
  unfold pop. destruct (isEmpty this) eqn:E.
  { intros [= Htl ?]. }
  case_decide.
  - by intros [= _ <-].
  - intros (p & _ & (h' & _ & [= _ <-])%bind_Ret_inv)%bind_Ret_inv. done.
Qed.

Lemma delete_length this this' index node :
  delete index this = Ret (Some node, this') → length this' = length this - 1.
Proof.
  unfold delete. destruct (_ || _); [by intros [= ? ?]|].
  case_bool_decide.
  - by intros (nd & _ & [= _ <-])%bind_Ret_inv.
  - intros ([prev cur] & _ & Hk)%bind_Ret_inv.
    apply bind_Ret_inv in Hk as (nd & _ & Hk).
    by apply bind_Ret_inv in Hk as (h' & _ & [= _ <-]).
Qed.

Lemma removal_length this this' :
  removal this this' → length this' = length this - 1.
Proof.
  intros [(fuel & node & H)|(index & node & H)];
    [by eapply pop_length|by eapply delete_length].
Qed.

Lemma removals_length (M : nat) this this' :
  nsteps removal M this this' → length this' = length this - Z.of_nat M.
Proof.
  induction 1 as [|M this this1 this' Hstep _ IH]; [lia|].
  apply removal_length in Hstep. lia.
Qed.

(** *** What survives in every reachable state *)

Lemma lseg_None_nil h nodes : lseg h None nodes None → nodes = [].
Proof. destruct nodes as [|[l v] nodes]; [done|]. by intros [? _]. Qed.

(** A node of a chain whose [next] is [null] is its last node. *)
Lemma lseg_last h p nodes l nd :
  lseg h p nodes None → l ∈ nodes.*1 → h !! l = Some nd → next nd = None →
  ∃ front, nodes = front ++ [(l, value nd)].
Proof.
  revert p. induction nodes as [|[l' v] nodes IH]; intros p; cbn.
  - intros _ ?%elem_of_nil. done.
  - intros (-> & nx & Hl' & Hrest) Hin Hl Hnx.
    destruct (decide (l = l')) as [->|Hne].
    + rewrite Hl' in Hl. injection Hl as <-. cbn in Hnx. subst nx.
      apply lseg_None_nil in Hrest as ->. by exists [].
    + apply elem_of_cons in Hin as [?|Hin]; [done|].
      destruct (IH _ Hrest Hin Hl Hnx) as (front & ->).
      by exists ((l', v) :: front).
Qed.

Lemma find_penultimate_inv (fuel : nat) h tl p nodes pen :
  lseg h p nodes None → find_penultimate fuel h tl p = Ret (Some pen) →
  ∃ front pv back, nodes = front ++ (pen, pv) :: back
                   ∧ h !! pen = Some {| value := pv; next := tl |}.
Proof.
  revert p nodes. induction fuel as [|fuel IH]; intros p nodes; cbn; [done|].
  destruct p as [l|]; [|done].
  destruct nodes as [|[l' v] nodes]; [done|]. cbn.
  intros ([= <-] & nx & Hl & Hrest). rewrite Hl. cbn. case_decide as Hnx.
  - intros [= <-]. subst nx. by exists [], v, nodes.
  - intros Hfind. destruct (IH _ _ Hrest Hfind) as (front & pv & back & -> & ?).
    by exists ((l, v) :: front), pv, back.
Qed.

Lemma walk_previous_inv h p nodes (n : nat) previous r :
  lseg h p nodes None → walk_previous h n previous p = Ret r →
  (n ≤ List.length nodes)%nat.
Proof.
  revert p n previous.
  induction nodes as [|[l v] nodes IH]; intros p n previous; cbn.
  - intros ->. destruct n; [lia|done].
  - intros (-> & nx & Hl & Hrest). destruct n as [|n]; [lia|].
    cbn. rewrite Hl. cbn. intros Hw%IH; [lia|done].
Qed.

Lemma get_unchanged this this' index node :
  get index this = Ret (node, this') → this' = this.
Proof.
  unfold get. destruct (_ || _); [by intros [= _ <-]|].
  case_bool_decide; [by intros [= _ <-]|].
  by intros (cur & _ & [= _ <-])%bind_Ret_inv.
Qed.

Lemma print_unchanged (show : T → string) (fuel : nat) this this' str :
  print show fuel this = Ret (str, this') → this' = this.
Proof. unfold print. by intros (vals & _ & [= _ <-])%bind_Ret_inv. Qed.

Lemma push_counted_chain this this' v node :
  counted_chain this → push v this = Ret (node, this') → counted_chain this'.
Proof.
  intros (nodes & Hc & Hnd & Htail & Hhead & Hsize). unfold push, createNode.
  set (l := fresh (dom (heap this))).
  assert (l ∉ nodes.*1) as Hfresh by by eapply lseg_fresh.
  case_decide as Hhd.
  - intros [= _ <-]. exists [(l, v)]. unfold chain, I4. cbn.
    split; [|split; [apply NoDup_singleton|split; [|split; [done|lia]]]].
    + split; [done|]. exists None. by rewrite lookup_insert_eq.
    + intros l' [= <-]. eexists. by rewrite lookup_insert_eq.
  - intros (h' & Hset & [= _ <-])%bind_Ret_inv. unfold set_next in Hset.
    destruct (tail this) as [tl|] eqn:Htl; [|done].
    destruct (Htail tl Htl) as (nd & Hnd_tl & Hnx).
    assert (tl ≠ l) as Hne.
    { intros ->. apply (is_fresh (dom (heap this))). apply elem_of_dom. eauto. }
    rewrite lookup_insert_ne, Hnd_tl in Hset by done. injection Hset as <-.
    assert (I4 {| heap := <[tl := {| value := value nd; next := Some l |}]>
                            (<[l := {| value := v; next := None |}]> (heap this));
                  head := head this; tail := Some l;
                  length := length this + 1 |}) as Htail'.
    { intros l' [= <-]. eexists. cbn.
      by rewrite lookup_insert_ne, lookup_insert_eq. }
    destruct (decide (tl ∈ nodes.*1)) as [Hin|Hnotin].
    + destruct (lseg_last _ _ _ _ _ Hc Hin Hnd_tl Hnx) as (front & ->).
      exists ((front ++ [(tl, value nd)]) ++ [(l, v)]).
      rewrite fmap_app in Hnd. apply NoDup_app in Hnd as (Hnd_front & Hnot & _).
      split; [|split; [|split; [done|split; [done|]]]].
      * unfold chain in *. cbn. rewrite <-app_assoc. apply lseg_app.
        apply lseg_app in Hc as (m & Hfront & -> & _).
        exists (Some tl). split.
        -- apply lseg_insert_notin; [|apply lseg_insert_notin; [|done]].
           ++ intros Hin'. apply (Hnot tl Hin'). cbn. left.
           ++ intros Hin'. apply Hfresh. rewrite fmap_app. apply elem_of_app.
              by left.
        -- cbn. split; [done|]. eexists. rewrite lookup_insert_eq.
           split; [done|]. split; [done|]. exists None.
           by rewrite lookup_insert_ne, lookup_insert_eq.
      * rewrite fmap_app. apply NoDup_app. split; [|split].
        -- rewrite fmap_app. apply NoDup_app.
           split; [done|]. split; [done|apply NoDup_singleton].
        -- intros x Hx ->%list_elem_of_singleton. done.
        -- apply NoDup_singleton.
      * cbn. rewrite !length_app. rewrite !length_app in Hsize. cbn in Hsize |- *. lia.
    + exists nodes. split; [|split; [done|split; [done|split; [done|cbn; lia]]]].
      unfold chain in *. cbn. by do 2 (apply lseg_insert_notin; [done|]).
Qed.

Lemma pop_counted_chain this this' (fuel : nat) node :
  counted_chain this → pop fuel this = Ret (node, this') → counted_chain this'.
Proof.
  intros Hchain.
  pose proof Hchain as (nodes & Hc & Hnd & Htail & Hhead & Hsize).
  unfold pop. destruct (isEmpty this) eqn:Hempty; [by intros [= _ <-]|].
  apply bool_decide_eq_false in Hempty.
  case_decide as Hht.
  - intros [= _ <-]. exists []. split; [done|]. split; [apply NoDup_nil_2|].
    split; [done|]. split; [done|]. cbn. lia.
  - intros (pen & Hfind & (h' & Hset & [= _ <-])%bind_Ret_inv)%bind_Ret_inv.
    unfold set_next in Hset. destruct pen as [pl|]; [|done].
    destruct (find_penultimate_inv _ _ _ _ _ _ Hc Hfind)
      as (front & pv & back & -> & Hpl).
    rewrite Hpl in Hset. injection Hset as <-. cbn.
    exists (front ++ [(pl, pv)]).
    rewrite fmap_app in Hnd. apply NoDup_app in Hnd as (Hnd_front & Hnot & Hnd_back).
    assert (back ≠ []) as Hback.
    { intros ->. unfold chain in Hc.
      apply lseg_app in Hc as (m & _ & _ & nx & Hpl' & Hnx).
      rewrite Hpl in Hpl'. injection Hpl' as <-. cbn in Hnx.
      apply Hht. by rewrite Hnx, Hhead. }
    split; [|split; [|split; [|split; [done|]]]].
    + unfold chain in *. cbn. apply lseg_app in Hc as (m & Hfront & -> & _).
      apply lseg_app. exists (Some pl). split.
      * apply lseg_insert_notin; [|done].
        intros Hin. apply (Hnot pl Hin). cbn. left.
      * cbn. split; [done|]. exists None. by rewrite lookup_insert_eq.
    + rewrite fmap_app. apply NoDup_app. split; [done|].
      split; [|apply NoDup_singleton].
      intros x Hx ->%list_elem_of_singleton. apply (Hnot pl Hx). cbn. left.
    + intros l [= <-]. eexists. cbn. by rewrite lookup_insert_eq.
    + cbn. rewrite !length_app. rewrite !length_app in Hsize. cbn in Hsize |- *.
      destruct back; [done|]. cbn in Hsize. lia.
Qed.

Lemma walk_previous_beyond h p nodes (n : nat) previous :
  lseg h p nodes None → (List.length nodes < n)%nat →
  walk_previous h n previous p = TypeError.
Proof.
  revert p n previous.
  induction nodes as [|[l v] nodes IH]; intros p n previous; cbn.
  - intros -> ?. destruct n; [lia|done].
  - intros (-> & nx & Hl & Hrest) Hn. destruct n as [|n]; [lia|].
    cbn. rewrite Hl. cbn. apply IH; [done|lia].
Qed.

(** Past the end of the chain [delete] raises. *)
Lemma delete_beyond this nodes index :
  chain this nodes → 0 < index ≤ length this →
  (List.length nodes ≤ Z.to_nat index)%nat →
  delete index this = TypeError.
Proof.
  intros Hc Hrange Hn. unfold delete.
  rewrite (bool_decide_eq_false_2 (_ < 0)) by lia.
  rewrite (bool_decide_eq_false_2 (_ > _)) by lia.
  rewrite (bool_decide_eq_false_2 (_ = 0)) by lia. cbn [orb].
  destruct (decide (List.length nodes = Z.to_nat index)) as [Heq|Hne].
  - rewrite (walk_previous_chain _ _ nodes) by (done || lia). cbn.
    rewrite lookup_ge_None_2; [done|]. rewrite length_fmap. lia.
  - by rewrite (walk_previous_beyond _ _ nodes) by (done || lia).
Qed.

Lemma nodes_split2 nodes (n : nat) :
  (S n < List.length nodes)%nat →
  ∃ front pl pv dl dv back,
    nodes = front ++ (pl, pv) :: (dl, dv) :: back ∧ List.length front = n.
Proof.
  intros Hn.
  assert (2 ≤ List.length (drop n nodes))%nat as Hdrop
    by (rewrite length_drop; lia).
  destruct (drop n nodes) as [|[pl pv] [|[dl dv] back]] eqn:E;
    cbn in Hdrop; try lia.
  exists (take n nodes), pl, pv, dl, dv, back.
  split; [by rewrite <-E, take_drop|]. rewrite length_take. lia.
Qed.

Lemma delete_counted_chain this this' index node :
  counted_chain this → delete index this = Ret (node, this') →
  counted_chain this'.
Proof.
  intros Hchain Hdel.
  pose proof Hchain as (nodes & Hc & Hnd & Htail & Hhead & Hsize).
  destruct (decide (index < 0 ∨ length this < index)) as [Hout|Hin].
  { rewrite delete_guard in Hdel by done. by injection Hdel as _ <-. }
  destruct (decide (index = 0)) as [->|Hne0].
  { destruct nodes as [|[l v] nodes].
    - unfold delete in Hdel. unfold chain in Hc. cbn in Hc.
      rewrite Hc in Hdel. destruct (_ || _); [by injection Hdel as _ <-|].
      by rewrite bool_decide_eq_true_2 in Hdel.
    - rewrite (delete_head this l v nodes) in Hdel by (done || lia).
      injection Hdel as _ <-. destruct Hc as (Hhd & nx & Hl & Hrest).
      exists nodes. apply NoDup_cons in Hnd as [_ Hnd].
      split; [|split; [done|split; [done|split]]].
      + unfold chain. cbn. by rewrite <-(lseg_start _ _ _ Hrest).
      + cbn. intros Htl%Hhead. congruence.
      + cbn in Hsize |- *. lia. }
  destruct (decide (List.length nodes ≤ Z.to_nat index)%nat) as [Hge|Hlt].
  { rewrite (delete_beyond this nodes) in Hdel by (done || lia). done. }
  destruct (nodes_split2 nodes (Z.to_nat index - 1))
    as (front & pl & pv & dl & dv & back & -> & Hfront); [lia|].
  replace index with (Z.of_nat (List.length front) + 1) in Hdel by lia.
  rewrite (delete_inner this front pl pv dl dv back) in Hdel by (done || lia).
  injection Hdel as _ <-.
  unfold chain in Hc. apply lseg_app in Hc
    as (m & Hcf & -> & nx & Hpl & -> & nx' & Hdl & Hback).
  rewrite fmap_app in Hnd. apply NoDup_app in Hnd as (Hnd_front & Hnot & Hnd_rest).
  cbn in Hnd_rest. apply NoDup_cons in Hnd_rest as [Hpl_notin Hnd_rest].
  apply NoDup_cons in Hnd_rest as [Hdl_notin Hnd_back].
  apply not_elem_of_cons in Hpl_notin as [Hpl_dl Hpl_back].
  exists (front ++ (pl, pv) :: back).
  split; [|split; [|split; [|split; [done|]]]].
  - unfold chain. cbn. apply lseg_app. exists (Some pl). split.
    + apply lseg_insert_notin; [|done].
      intros Hin'. apply (Hnot pl Hin'). cbn. left.
    + cbn. split; [done|]. eexists. rewrite lookup_insert_eq. split; [done|].
      rewrite <-(lseg_start _ _ _ Hback). by apply lseg_insert_notin.
  - rewrite fmap_app. apply NoDup_app. split; [done|]. split.
    + intros x Hx Hx'. apply (Hnot x Hx). cbn in *.
      apply elem_of_cons in Hx' as [->|Hx']; [left|by do 2 right].
    + cbn. apply NoDup_cons. split; [done|done].
  - intros l Hl. cbn in Hl. destruct (Htail l Hl) as (nd & Hnd_l & Hnx).
    exists nd. cbn. rewrite lookup_insert_ne; [done|].
    intros <-. rewrite Hpl in Hnd_l. injection Hnd_l as <-. done.
  - cbn. rewrite !length_app. rewrite !length_app in Hsize. cbn in Hsize |- *. lia.
Qed.

Lemma step_counted_chain this this' :
  counted_chain this → step this this' → counted_chain this'.
Proof.
  intros Hchain [c Hc]. destruct c as [v|fuel|index|index|show fuel|];
    cbn [invoke] in Hc.
  - apply bind_Ret_inv in Hc as ([node this1] & Hpush & [= <-]).
    by eapply push_counted_chain.
  - apply bind_Ret_inv in Hc as ([node this1] & Hpop & [= <-]).
    by eapply pop_counted_chain.
  - apply bind_Ret_inv in Hc as ([node this1] & Hget & [= <-]).
    by apply get_unchanged in Hget as ->.
  - apply bind_Ret_inv in Hc as ([node this1] & Hdel & [= <-]).
    by eapply delete_counted_chain.
  - apply bind_Ret_inv in Hc as ([str this1] & Hprint & [= <-]).
    by apply print_unchanged in Hprint as ->.
  - by injection Hc as <-.
Qed.

Lemma reachable_counted_chain this : reachable this → counted_chain this.
Proof.
  unfold reachable. revert this. apply rtc_ind_r.
  - exists []. split; [done|]. split; [apply NoDup_nil_2|].
    split; [done|]. split; [done|]. cbn. lia.
  - intros this1 this2 _ Hstep IH. by eapply step_counted_chain.
Qed.

(** Whatever calls were made on a new list, the chain from [head] is
    finite, ends in [null] and repeats no node, and the [next] of the tail
    is [null]. *)
Lemma reachable_has_chain this : reachable this → has_chain this.
Proof.
  intros (nodes & Hc & Hnd & Htail & Hhead & _)%reachable_counted_chain.
  by exists nodes.
Qed.

(** X11. In every state that calls on a new list lead to, also one that
    [delete] has left without a proper tail, [print], given fuel for the
    chain from [head], returns the joined values of that chain and changes
    nothing: it never raises. *)
Theorem print_reachable (show : T → string) this :
  reachable this →
  ∃ nodes, chain this nodes
           ∧ ∀ fuel : nat, (List.length nodes < fuel)%nat →
               print show fuel this
                 = Ret (join " => " (show <$> nodes.*2), this).
Proof.
  intros (nodes & Hc & _)%reachable_has_chain. exists nodes.
  split; [done|]. intros fuel Hfuel. by apply print_chain.
Qed.

(** *** More on [push], [pop] and [delete] *)

Lemma pop_one this l v (fuel : nat) :
  is_list this [(l, v)] →
  pop fuel this
  = Ret (Some l, {| heap := heap this; head := None; tail := None;
                    length := 0 |}).
Proof.
  intros ((Hhd & nx & Hl & Hnx) & _ & Htl & Hlen). cbn in *.
  unfold pop, isEmpty. rewrite bool_decide_eq_false_2 by lia.
  rewrite decide_True by congruence. by rewrite Htl, Hlen.
Qed.

Lemma pop_many this front pl pv tl tv (fuel : nat) :
  is_list this (front ++ [(pl, pv); (tl, tv)]) →
  (List.length front < fuel)%nat →
  let this' := {| heap := <[pl := {| value := pv; next := None |}]> (heap this);
                  head := head this; tail := Some pl;
                  length := length this - 1 |} in
  pop fuel this = Ret (Some tl, this') ∧ is_list this' (front ++ [(pl, pv)]).
Proof.
  intros Hlist Hfuel this'. pose proof Hlist as (Hc & Hnd & _).
  apply is_list_snoc2 in Hlist
    as ((l0 & Hhd & Hne) & Htl & Hpl & Htlnode & Hfront & Hnd' & Hnotin & Hlen).
  split.
  - unfold pop, isEmpty. rewrite bool_decide_eq_false_2 by lia.
    rewrite decide_False by (rewrite Hhd, Htl; congruence).
    rewrite Htl.
    rewrite (find_penultimate_chain _ _ front pl pv tl tv) by done.
    cbn. rewrite Hpl. cbn. by rewrite <-Htl.
  - split; [|split; [done|split]]; cbn.
    + apply lseg_app. exists (Some pl). split.
      * apply lseg_insert_notin; [|done].
        rewrite fmap_app in Hnd'. apply NoDup_app in Hnd' as (_ & Hnot & _).
        intros Hin. apply (Hnot pl Hin). cbn. left.
      * cbn. split; [done|]. exists None. by rewrite lookup_insert_eq.
    + by rewrite last_fst_snoc.
    + rewrite length_app. cbn. lia.
Qed.

Lemma is_list_bookkeeping this1 this2 nodes :
  is_list this1 nodes → is_list this2 nodes →
  head this2 = head this1 ∧ tail this2 = tail this1
  ∧ length this2 = length this1.
Proof.
  intros (Hc1 & _ & Ht1 & Hl1) (Hc2 & _ & Ht2 & Hl2).
  apply lseg_start in Hc1, Hc2. repeat split; congruence.
Qed.

Lemma pushes_reachable (values : list T) this this' :
  reachable this → pushes values this = Ret this' → reachable this'.
Proof.
  revert this. induction values as [|v values IH]; intros this Hreach;
    cbn [pushes].
  - by intros [= <-].
  - intros ([node this1] & Hpush & Hrest)%bind_Ret_inv.
    apply (IH this1); [|done]. eapply rtc_r; [exact Hreach|].
    exists (Push v). cbn [invoke]. by rewrite Hpush.
Qed.

(** X8. [push(v)] on a linked list returns a node that the list did not
    hold, with value [v] and no successor; the list then holds the nodes
    it held, in the same order, followed by that node, which is its tail,
    and [length] has grown by 1. *)
Theorem push_appends this nodes v :
  is_list this nodes →
  ∃ node this',
    push v this = Ret (node, this')
    ∧ heap this !! node = None
    ∧ is_list this' (nodes ++ [(node, v)])
    ∧ tail this' = Some node
    ∧ heap this' !! node = Some {| value := v; next := None |}
    ∧ length this' = length this + 1.
Proof.
  intros Hlist.
  destruct (push_is_list this nodes v Hlist) as (this' & Hpush & Hlist' & Hlen).
  exists (fresh (dom (heap this))), this'. split; [done|]. split.
  { apply not_elem_of_dom, is_fresh. }
  split; [done|].
  apply is_list_snoc in Hlist' as (_ & Htl & Hnode & _). by repeat split.
Qed.

(** X9. In every state that calls on a new list lead to, also one that
    [delete] has left without a proper tail, [push(v)] returns: it never
    raises.  It returns a new node with value [v] and no successor, makes
    it the tail and adds 1 to [length]. *)
Theorem push_never_raises this v :
  reachable this →
  ∃ node this',
    push v this = Ret (node, this')
    ∧ heap this !! node = None
    ∧ tail this' = Some node
    ∧ heap this' !! node = Some {| value := v; next := None |}
    ∧ length this' = length this + 1
    ∧ reachable this'.
Proof.
  intros Hreach.
  pose proof (reachable_has_chain this Hreach) as (nodes & _ & _ & Htail & Hhead).
  assert (∃ node this',
    push v this = Ret (node, this')
    ∧ heap this !! node = None
    ∧ tail this' = Some node
    ∧ heap this' !! node = Some {| value := v; next := None |}
    ∧ length this' = length this + 1) as (node & this' & Hpush & Hrest).
  { unfold push, createNode. set (l := fresh (dom (heap this))).
    assert (heap this !! l = None) as Hl by apply not_elem_of_dom, is_fresh.
    case_decide as Hhd.
    - eexists _, _. split; [done|]. cbn. by rewrite lookup_insert_eq.
    - destruct (tail this) as [tl|] eqn:Htl; [|by specialize (Hhead eq_refl)].
      destruct (Htail tl Htl) as (nd & Hnd & _).
      assert (tl ≠ l) as Hne by congruence.
      cbn. rewrite lookup_insert_ne, Hnd by done. cbn.
      eexists _, _. split; [done|]. cbn.
      by rewrite lookup_insert_ne, lookup_insert_eq. }
  exists node, this'. split; [done|]. repeat split; try apply Hrest.
  eapply rtc_r; [exact Hreach|]. exists (Push v). cbn [invoke]. by rewrite Hpush.
Qed.

(** X10. In every state that calls on a new list lead to: [length] is not
    negative and not below the number of nodes in the chain from [head];
    that chain ends in [null] and repeats no node; the [next] of the tail
    is [null]; and a list with a head has a tail and a positive
    [length]. *)
Theorem reachable_invariants this :
  reachable this →
  0 ≤ length this
  ∧ I4 this
  ∧ (head this ≠ None → tail this ≠ None ∧ 0 < length this)
  ∧ ∃ nodes, chain this nodes ∧ NoDup nodes.*1
             ∧ Z.of_nat (List.length nodes) ≤ length this.
Proof.
  intros (nodes & Hc & Hnd & Htail & Hhead & Hsize)%reachable_counted_chain.
  split; [lia|]. split; [done|]. split; [|by exists nodes].
  intros Hhd. split; [by intros ?%Hhead|].
  destruct nodes; [by apply lseg_start in Hc|]. cbn in Hsize. lia.
Qed.

(** X18. In every reachable state in which [isEmpty()] holds, [head] is
    none, [get] returns none for every index, [pop] returns none and
    [print] returns the empty string, all without a change. *)
Theorem reachable_empty this :
  reachable this → isEmpty this = true →
  head this = None
  ∧ (∀ index, get index this = Ret (None, this))
  ∧ (∀ fuel, pop fuel this = Ret (None, this))
  ∧ (∀ (show : T → string) (fuel : nat),
       print show (S fuel) this = Ret (EmptyString, this)).
Proof.
  intros (nodes & Hc & _ & _ & _ & Hsize)%reachable_counted_chain Hempty.
  pose proof Hempty as Hlen%bool_decide_eq_true.
  destruct nodes; [|cbn in Hsize; lia].
  unfold chain in Hc. cbn in Hc.
  split; [done|]. split; [|split].
  - intros index. unfold get. rewrite Hlen.
    destruct (decide (index = 0)) as [->|Hne].
    + cbn. by rewrite Hc.
    + destruct (decide (index < 0)).
      * by rewrite (bool_decide_eq_true_2 (index < 0)).
      * rewrite (bool_decide_eq_true_2 (index > 0)) by lia.
        by rewrite orb_true_r.
  - intros fuel. unfold pop. by rewrite Hempty.
  - intros show fuel. unfold print. cbn. by rewrite Hc.
Qed.

(** X12. After pushing [values] on a new list, [get(i)] for every [i]
    from 0 below their number returns, without a change, a node whose
    value is the [i]-th pushed value. *)
Theorem pushes_get (values : list T) :
  ∃ this,
    pushes values createLinkedList = Ret this
    ∧ ∀ index, 0 ≤ index < Z.of_nat (List.length values) →
        ∃ l nd, get index this = Ret (Some l, this)
                ∧ heap this !! l = Some nd
                ∧ values !! Z.to_nat index = Some (value nd).
Proof.
  destruct (pushes_is_list values createLinkedList [] is_list_create)
    as (this & nodes & Hrun & (Hc & _ & _ & Hlen) & Hvals & _).
  cbn in Hc, Hlen. exists this. split; [done|]. intros index Hrange.
  assert (List.length nodes = List.length values) as Hsame
    by by rewrite <-Hvals, length_fmap.
  destruct (lookup_lt_is_Some_2 nodes (Z.to_nat index)) as [[l v] Hlv]; [lia|].
  destruct (lseg_node _ _ _ _ _ _ _ Hc Hlv) as (nx & Hl).
  exists l, {| value := v; next := nx |}.
  rewrite (get_chain this nodes) by (done || lia).
  rewrite list_lookup_fmap, Hlv. split; [done|]. split; [done|].
  by rewrite <-Hvals, list_lookup_fmap, Hlv.
Qed.

(** X13. After pushing [values] on a new list, [print], given fuel for
    that many nodes, returns the pushed values in the order of the pushes,
    joined by [" => "]. *)
Theorem pushes_print (show : T → string) (values : list T) :
  ∃ this,
    pushes values createLinkedList = Ret this
    ∧ ∀ fuel : nat, (List.length values < fuel)%nat →
        print show fuel this = Ret (join " => " (show <$> values), this).
Proof.
  destruct (pushes_is_list values createLinkedList [] is_list_create)
    as (this & nodes & Hrun & (Hc & _) & Hvals & _).
  cbn in Hc. exists this. split; [done|]. intros fuel Hfuel.
  rewrite <-Hvals. apply print_chain; [done|].
  by rewrite <-Hvals, length_fmap in Hfuel.
Qed.

(** X14. On a linked list, [push(v)] and then [pop()] (given fuel for the
    walk) returns the node that the push created and leaves a list that
    holds the same nodes as before, with [head], [tail] and [length] as
    before. *)
Theorem push_then_pop this nodes v (fuel : nat) :
  is_list this nodes → (List.length nodes ≤ fuel)%nat →
  ∃ node this1 this2,
    push v this = Ret (node, this1)
    ∧ pop fuel this1 = Ret (Some node, this2)
    ∧ is_list this2 nodes
    ∧ head this2 = head this ∧ tail this2 = tail this
    ∧ length this2 = length this.
Proof.
  intros Hlist Hfuel.
  destruct (push_is_list this nodes v Hlist) as (this1 & Hpush & Hlist1 & _).
  set (node := fresh (dom (heap this))) in *.
  assert (∃ this2, pop fuel this1 = Ret (Some node, this2) ∧ is_list this2 nodes)
    as (this2 & Hpop & Hlist2).
  { destruct (nodes_snoc_cases nodes) as [->|(front & tl & tv & ->)].
    - cbn in Hlist1. rewrite (pop_one this1 node v) by done.
      eexists. split; [done|]. apply is_list_create.
    - rewrite <-app_assoc in Hlist1. cbn in Hlist1.
      rewrite length_app in Hfuel. cbn in Hfuel.
      destruct (pop_many this1 front tl tv node v fuel Hlist1) as [Hpop Hl2]; [lia|].
      eauto. }
  exists node, this1, this2. split; [done|]. split; [done|]. split; [done|].
  by apply (is_list_bookkeeping this this2 nodes).
Qed.

(** X15. On a linked list, [delete] at the index of any node but the
    last returns that node and leaves a linked list that holds the other
    nodes in their order. *)
Theorem delete_keeps_list this front dl dv back :
  is_list this (front ++ (dl, dv) :: back) → back ≠ [] →
  ∃ this', delete (Z.of_nat (List.length front)) this = Ret (Some dl, this')
           ∧ is_list this' (front ++ back).
Proof.
  intros (Hc & Hnd & Htl & Hlen) Hback.
  rewrite length_app in Hlen. cbn in Hlen.
  assert (last (front ++ (dl, dv) :: back).*1 = last (front ++ back).*1) as Hlast.
  { rewrite !fmap_app, fmap_cons, !last_app, last_cons.
    destruct (last back.*1) eqn:E; [done|].
    apply last_None, fmap_nil_inv in E. done. }
  destruct (nodes_snoc_cases front) as [->|(front' & pl & pv & ->)].
  - cbn in Hc, Hnd, Htl, Hlen, Hlast. change (Z.of_nat (List.length [])) with 0.
    rewrite (delete_head this dl dv back) by (done || lia).
    eexists. split; [done|]. destruct Hc as (Hhd & nx & Hl & Hrest).
    apply NoDup_cons in Hnd as [_ Hnd].
    split; [|split; [done|split; [by rewrite Htl, Hlast|cbn; lia]]].
    unfold chain. cbn. by rewrite <-(lseg_start _ _ _ Hrest).
  - rewrite <-app_assoc in Hc, Hnd, Htl. rewrite <-!app_assoc in Hlast.
    cbn [app] in Hc, Hnd, Hlast, Htl.
    rewrite length_app in Hlen |- *. cbn in Hlen |- *.
    replace (Z.of_nat (List.length front' + 1))
      with (Z.of_nat (List.length front') + 1) by lia.
    rewrite (delete_inner this front' pl pv dl dv back) by (done || lia).
    eexists. split; [done|]. rewrite <-app_assoc. cbn [app].
    unfold chain in Hc. apply lseg_app in Hc
      as (m & Hcf & -> & nx & Hpl & -> & nx' & Hdl & Hbk).
    rewrite fmap_app in Hnd. apply NoDup_app in Hnd as (Hnd_front & Hnot & Hnd_rest).
    cbn in Hnd_rest. apply NoDup_cons in Hnd_rest as [Hpl_notin Hnd_rest].
    apply NoDup_cons in Hnd_rest as [Hdl_notin Hnd_back].
    apply not_elem_of_cons in Hpl_notin as [Hpl_dl Hpl_back].
    split; [|split; [|split]].
    + unfold chain. cbn. apply lseg_app. exists (Some pl). split.
      * apply lseg_insert_notin; [|done].
        intros Hin'. apply (Hnot pl Hin'). cbn. left.
      * cbn. split; [done|]. eexists. rewrite lookup_insert_eq. split; [done|].
        rewrite <-(lseg_start _ _ _ Hbk). by apply lseg_insert_notin.
    + rewrite fmap_app. apply NoDup_app. split; [done|]. split.
      * intros x Hx Hx'. apply (Hnot x Hx). cbn in *.
        apply elem_of_cons in Hx' as [->|Hx']; [left|by do 2 right].
      * cbn. apply NoDup_cons. split; [done|done].
    + exact (eq_trans Htl Hlast).
    + cbn. rewrite !length_app. cbn. lia.
Qed.

Lemma pops_chain nodes : ∀ this (fuel : nat),
  is_list this nodes → (List.length nodes ≤ fuel)%nat →
  ∃ this', pops fuel (List.length nodes) this
           = Ret (Some <$> reverse nodes.*1, this')
           ∧ is_list this' [].
Proof.
  induction nodes as [|[l v] nodes IH] using rev_ind; intros this fuel Hlist Hfuel.
  { exists this. by split. }
  rewrite length_app in Hfuel |- *. cbn in Hfuel.
  rewrite Nat.add_comm. cbn [Nat.add pops].
  rewrite fmap_app, reverse_app. cbn.
  destruct (nodes_snoc_cases nodes) as [->|(front & pl & pv & ->)].
  - cbn in Hlist. rewrite (pop_one this l v) by done. cbn.
    eexists. split; [done|]. apply is_list_create.
  - rewrite <-app_assoc in Hlist. cbn in Hlist.
    rewrite length_app in Hfuel. cbn in Hfuel.
    destruct (pop_many this front pl pv l v fuel Hlist) as [-> Hlist']; [lia|].
    cbn. destruct (IH _ fuel Hlist') as (this' & -> & Hnil).
    { rewrite length_app. cbn. lia. }
    cbn. by exists this'.
Qed.

(** X16. On a linked list, as many [pop] calls as it has nodes (each
    given fuel for the walk) return its nodes from the last to the first
    and leave an empty linked list, on which a further [pop] returns none
    and changes nothing. *)
Theorem pops_drain this nodes (fuel : nat) :
  is_list this nodes → (List.length nodes ≤ fuel)%nat →
  ∃ this', pops fuel (List.length nodes) this
           = Ret (Some <$> reverse nodes.*1, this')
           ∧ is_list this' []
           ∧ head this' = None ∧ tail this' = None ∧ length this' = 0
           ∧ pop fuel this' = Ret (None, this').
Proof.
  intros Hlist Hfuel.
  destruct (pops_chain nodes this fuel Hlist Hfuel) as (this' & Hpops & Hnil).
  exists this'. split; [done|]. split; [done|].
  apply is_list_nil in Hnil as (Hhd & Htl & Hlen). repeat split; try done.
  unfold pop, isEmpty. by rewrite bool_decide_eq_true_2.
Qed.

(** The loop of [pop] finds nothing when the tail is not in the chain. *)
Lemma find_penultimate_absent h p nodes tl (fuel : nat) :
  lseg h p nodes None → tl ∉ nodes.*1 → (List.length nodes < fuel)%nat →
  find_penultimate fuel h (Some tl) p = Ret None.
Proof.
  revert p fuel. induction nodes as [|[l v] nodes IH]; intros p fuel; cbn.
  - intros -> _ Hfuel. destruct fuel; [lia|done].
  - intros (-> & nx & Hl & Hrest) [Hne Hnotin]%not_elem_of_cons Hfuel.
    destruct fuel as [|fuel]; [lia|]. cbn. rewrite Hl. cbn.
    rewrite decide_False; [apply IH; (done || lia)|].
    apply lseg_start in Hrest as ->. intros Hin%list_elem_of_lookup_2. done.
Qed.

(** X17. On a linked list of two or more nodes, [delete] at the last
    index returns the last node; the [pop] that follows (given fuel for
    its walk) raises [TypeError]: its walk looks for the node before the
    tail, but [tail] still is the removed node, which the chain no longer
    holds. *)
Theorem delete_tail_then_pop_raises this front pl pv tl tv (fuel : nat) :
  is_list this (front ++ [(pl, pv); (tl, tv)]) →
  (List.length front + 1 < fuel)%nat →
  ∃ this', delete (length this - 1) this = Ret (Some tl, this')
           ∧ tail this' = Some tl
           ∧ pop fuel this' = TypeError.
Proof.
  intros Hlist Hfuel. pose proof Hlist as (Hc & _ & _ & Hlen').
  apply is_list_snoc2 in Hlist
    as ((l0 & Hhd & Hne) & Htl & Hpl & Htlnode & Hfront & Hnd' & Hnotin & Hlen).
  replace (length this - 1) with (Z.of_nat (List.length front) + 1) by lia.
  rewrite (delete_inner this front pl pv tl tv []) by (done || lia).
  eexists. split; [done|]. split; [done|].
  unfold pop, isEmpty. cbn. rewrite bool_decide_eq_false_2 by lia.
  rewrite decide_False by (rewrite Hhd, Htl; congruence).
  rewrite Htl.
  rewrite (find_penultimate_absent _ _ (front ++ [(pl, pv)])); [done| |done|].
  - apply lseg_app. exists (Some pl). split.
    + apply lseg_insert_notin; [|done].
      rewrite fmap_app in Hnd'. apply NoDup_app in Hnd' as (_ & Hnot & _).
      intros Hin. apply (Hnot pl Hin). cbn. left.
    + cbn. split; [done|]. exists None. by rewrite lookup_insert_eq.
  - rewrite length_app. cbn. lia.
Qed.

(** *** Removals that find a node *)

Lemma pop_returns this nodes (fuel : nat) :
  is_list this nodes → nodes ≠ [] → (List.length nodes ≤ fuel)%nat →
  ∃ node this' nodes',
    pop fuel this = Ret (Some node, this')
    ∧ is_list this' nodes'
    ∧ S (List.length nodes') = List.length nodes.
Proof.
  intros Hlist Hne Hfuel.
  destruct (nodes_snoc_cases nodes) as [->|(front & l & v & ->)]; [done|].
  destruct (nodes_snoc_cases front) as [->|(front' & pl & pv & ->)].
  - cbn in Hlist. exists l. eexists _, []. rewrite (pop_one this l v) by done.
    split; [done|]. split; [|done]. repeat split. apply NoDup_nil_2.
  - rewrite <-app_assoc in Hlist. cbn in Hlist.
    rewrite !length_app in Hfuel. cbn in Hfuel.
    destruct (pop_many this front' pl pv l v fuel Hlist) as [Hpop Hlist']; [lia|].
    exists l. eexists _, (front' ++ [(pl, pv)]). split; [exact Hpop|].
    split; [exact Hlist'|]. rewrite !length_app. cbn. lia.
Qed.

(** [delete] at an index before the last one leaves a linked list. *)
Lemma delete_inside this front dl dv back :
  is_list this (front ++ (dl, dv) :: back) → back ≠ [] →
  ∃ this', delete (Z.of_nat (List.length front)) this = Ret (Some dl, this')
           ∧ is_list this' (front ++ back).
Proof.
  intros (Hc & Hnd & Htl & Hlen) Hback.
  rewrite length_app in Hlen. cbn in Hlen.
  assert (tail this = last (front ++ back).*1) as Htl'.
  { rewrite Htl, !fmap_app, fmap_cons, !last_app, last_cons.
    destruct (last back.*1) eqn:E; [done|].
    apply last_None, fmap_nil_inv in E. done. }
  clear Htl. unfold chain in Hc.
  apply lseg_app in Hc as (m & Hcf & -> & nx & Hdl & Hbk).
  rewrite fmap_app in Hnd. apply NoDup_app in Hnd as (Hnd_front & Hnot & Hnd_rest).
  cbn in Hnd_rest. apply NoDup_cons in Hnd_rest as [Hdl_notin Hnd_back].
  assert (NoDup (front ++ back).*1) as Hnd'.
  { rewrite fmap_app. apply NoDup_app. split; [done|]. split; [|done].
    intros x Hx Hx'. apply (Hnot x Hx). cbn. by right. }
  assert (length this - 1 = Z.of_nat (List.length (front ++ back))) as Hlen'
    by (rewrite length_app; lia).
  destruct (nodes_snoc_cases front) as [->|(front' & pl & pv & ->)].
  - cbn in Hcf. change (Z.of_nat (List.length [])) with 0.
    rewrite (delete_head this dl dv back); [|by cbn; eauto|lia].
    eexists. split; [done|]. split; [|by split].
    unfold chain. cbn. by rewrite <-(lseg_start _ _ _ Hbk).
  - apply lseg_app in Hcf as (m & Hcf & -> & nx' & Hpl & Heq). cbn in Heq. subst nx'.
    rewrite length_app. cbn [List.length].
    replace (Z.of_nat (List.length front' + 1))
      with (Z.of_nat (List.length front') + 1) by lia.
    rewrite length_app in Hlen. cbn in Hlen.
    rewrite (delete_inner this front' pl pv dl dv back); [| |lia].
    2:{ unfold chain. apply lseg_app. exists (Some pl). split; [done|].
        cbn. eauto 10. }
    eexists. split; [done|]. split; [|by split].
    unfold chain. cbn. rewrite <-app_assoc. cbn [app].
    rewrite fmap_app in Hnd_front.
    apply NoDup_app in Hnd_front as (_ & Hnot_front & _).
    apply lseg_app. exists (Some pl). split.
    + apply lseg_insert_notin; [|done].
      intros Hin. apply (Hnot_front pl Hin). cbn. left.
    + cbn. split; [done|]. eexists. rewrite lookup_insert_eq. split; [done|].
      rewrite <-(lseg_start _ _ _ Hbk). apply lseg_insert_notin; [|done].
      intros Hin. apply (Hnot pl).
      * rewrite fmap_app. apply elem_of_app. right. cbn. left.
      * cbn. by right.
Qed.

(** [delete] at an index from 0 below the number of nodes returns the node
    at that index and takes 1 from [length]; before the last index it
    leaves a linked list. *)
Lemma delete_returns this nodes index :
  is_list this nodes → 0 ≤ index < Z.of_nat (List.length nodes) →
  ∃ node this',
    delete index this = Ret (Some node, this')
    ∧ length this' = length this - 1
    ∧ (index < Z.of_nat (List.length nodes) - 1 →
       ∃ nodes', is_list this' nodes'
                 ∧ S (List.length nodes') = List.length nodes).
Proof.
  intros Hlist Hrange.
  destruct (lookup_lt_is_Some_2 nodes (Z.to_nat index)) as [[dl dv] Hlook]; [lia|].
  apply list_elem_of_split_length in Hlook as (front & back & -> & Hfront).
  replace index with (Z.of_nat (List.length front)) in * by lia. clear Hfront.
  rewrite length_app in Hrange |- *. cbn in Hrange |- *.
  destruct (decide (back = [])) as [->|Hback].
  - pose proof Hlist as (Hc & _ & _ & Hlen). rewrite length_app in Hlen.
    cbn in Hlen.
    destruct (nodes_snoc_cases front) as [->|(front' & pl & pv & ->)].
    + cbn in Hlist, Hlen. change (Z.of_nat (List.length [])) with 0.
      rewrite (delete_singleton this dl dv) by done.
      eexists _, _. split; [done|]. cbn. split; lia.
    + rewrite <-app_assoc in Hc. cbn in Hc.
      rewrite length_app in Hlen |- *. cbn in Hlen |- *.
      replace (Z.of_nat (List.length front' + 1))
        with (Z.of_nat (List.length front') + 1) by lia.
      rewrite (delete_inner this front' pl pv dl dv []) by (done || lia).
      eexists _, _. split; [done|]. cbn. split; [done|]. lia.
  - destruct (delete_inside this front dl dv back Hlist Hback)
      as (this' & Hdel & Hlist').
    exists dl, this'. split; [done|].
    pose proof Hlist as (_ & _ & _ & Hlen).
    pose proof Hlist' as (_ & _ & _ & Hlen').
    rewrite length_app in Hlen, Hlen'. cbn in Hlen.
    split; [lia|]. intros _. exists (front ++ back).
    split; [done|]. rewrite !length_app. cbn. lia.
Qed.

(** Every call of a sequence that is [in_range] returns a node. *)
Lemma removals_in_range (calls : list removal_call) : ∀ this nodes (fuel : nat),
  is_list this nodes → in_range (List.length nodes) calls →
  (List.length nodes ≤ fuel)%nat →
  ∃ removed this',
    removals fuel calls this = Ret (Some <$> removed, this')
    ∧ List.length removed = List.length calls.
Proof.
  induction calls as [|c calls IH]; intros this nodes fuel Hlist Hin Hfuel.
  { by exists [], this. }
  cbn [in_range] in Hin. destruct (List.length nodes) as [|n] eqn:Hn; [done|].
  destruct Hin as [Hc Hrest]. cbn [removals].
  destruct c as [|index]; cbn [remove].
  - destruct (pop_returns this nodes fuel Hlist) as (l & this1 & nodes1 & -> & Hl1 & Hn1);
      [by destruct nodes|lia|].
    cbn. destruct (IH this1 nodes1 fuel Hl1) as (removed & this' & -> & Hlen);
      [by replace (List.length nodes1) with n by lia|lia|].
    exists (l :: removed), this'. cbn. by rewrite Hlen.
  - destruct Hc as [Hrange Hlast].
    destruct (delete_returns this nodes index Hlist) as (l & this1 & -> & _ & Hl1);
      [lia|].
    cbn. destruct (decide (index = Z.of_nat n)) as [Heq|Hne].
    + rewrite (Hlast Heq). cbn. by exists [l], this1.
    + destruct Hl1 as (nodes1 & Hl1 & Hn1); [lia|].
      destruct (IH this1 nodes1 fuel Hl1) as (removed & this' & -> & Hlen);
        [by replace (List.length nodes1) with n by lia|lia|].
      exists (l :: removed), this'. cbn. by rewrite Hlen.
Qed.

(** Calls that all returned a node are successful removals. *)
Lemma removals_nsteps (fuel : nat) (calls : list removal_call) : ∀ this this' removed,
  removals fuel calls this = Ret (Some <$> removed, this') →
  nsteps removal (List.length calls) this this'.
Proof.
  induction calls as [|c calls IH]; intros this this' removed; cbn [removals].
  { intros [= _ <-]. apply nsteps_O. }
  intros ([r this1] & Hrem & Hk)%bind_Ret_inv.
  apply bind_Ret_inv in Hk as ([rs this2] & Hrest & [= Hr <-]).
  destruct removed as [|l removed]; [done|]. injection Hr as -> ->.
  cbn. eapply nsteps_l; [|by eapply IH].
  destruct c as [|index]; [left|right]; eauto.
Qed.

Lemma removal_step this this' : removal this this' → step this this'.
Proof.
  intros [(fuel & node & H)|(index & node & H)].
  - exists (Pop fuel). cbn [invoke]. by rewrite H.
  - exists (Delete index). cbn [invoke]. by rewrite H.
Qed.

Lemma removals_reachable (M : nat) this this' :
  reachable this → nsteps removal M this this' → reachable this'.
Proof.
  intros Hreach Hsteps. induction Hsteps as [|M a b c Hab _ IH]; [done|].
  apply IH. eapply rtc_r; [exact Hreach|]. by apply removal_step.
Qed.

Lemma in_range_replicate (n M : nat) (c : removal_call) :
  c = ByPop ∨ c = ByDelete 0 → (M ≤ n)%nat → in_range n (replicate M c).
Proof.
  intros Hc. revert n. induction M as [|M IH]; intros n HM; [by cbn|].
  destruct n as [|n]; [lia|]. cbn. split; [|apply IH; lia].
  destruct Hc as [-> | ->]; [done|]. split; [lia|].
  intros Hn. destruct M; [done|lia].
Qed.

(** C7. [N] pushes on a new list all return and leave [length == N].
    After any [M] further calls that each were a [pop] or a [delete] and
    returned a node, [M ≤ N] and [length == N − M].  And such calls do
    return a node: in a sequence of removing calls where each [pop] meets a
    list that is not empty and each [delete] an index from 0 below the
    number of nodes left (a [delete] of the last node ending the sequence),
    every call returns a node; so for every [M ≤ N], [M] calls of [pop],
    and [M] calls of [delete(0)], all return a node and leave
    [length == N − M]. *)
Theorem length_accounting (values : list T) :
  let N := List.length values in
  ∃ this,
    pushes values createLinkedList = Ret this
    ∧ length this = Z.of_nat N
    ∧ (∀ (M : nat) this',
         nsteps removal M this this' →
         (M ≤ N)%nat ∧ length this' = Z.of_nat N - Z.of_nat M)
    ∧ (∀ (calls : list removal_call) (fuel : nat),
         in_range N calls → (N ≤ fuel)%nat →
         ∃ removed this',
           removals fuel calls this = Ret (Some <$> removed, this')
           ∧ List.length removed = List.length calls
           ∧ nsteps removal (List.length calls) this this'
           ∧ length this' = Z.of_nat N - Z.of_nat (List.length calls))
    ∧ (∀ (M fuel : nat) (c : removal_call),
         c = ByPop ∨ c = ByDelete 0 → (M ≤ N)%nat → (N ≤ fuel)%nat →
         ∃ removed this',
           removals fuel (replicate M c) this = Ret (Some <$> removed, this')
           ∧ List.length removed = M
           ∧ length this' = Z.of_nat N - Z.of_nat M).
Proof.
  intros N.
  destruct (pushes_is_list values createLinkedList [] is_list_create)
    as (this & added & Hrun & Hlist & Hvals & Hlen).
  cbn in Hlen, Hlist.
  assert (List.length added = N) as Hadded
    by (unfold N; by rewrite <-Hvals, length_fmap).
  assert (reachable this) as Hreach
    by (eapply pushes_reachable; [apply rtc_refl|exact Hrun]).
  assert (∀ (M : nat) this',
            nsteps removal M this this' →
            (M ≤ N)%nat ∧ length this' = Z.of_nat N - Z.of_nat M) as Hacc.
  { intros M this' Hsteps.
    pose proof (removals_length _ _ _ Hsteps) as Hlen'.
    pose proof (removals_reachable _ _ _ Hreach Hsteps)
      as (? & _ & _ & _ & _ & Hsize)%reachable_counted_chain.
    fold N in Hlen. split; lia. }
  assert (∀ (calls : list removal_call) (fuel : nat),
            in_range N calls → (N ≤ fuel)%nat →
            ∃ removed this',
              removals fuel calls this = Ret (Some <$> removed, this')
              ∧ List.length removed = List.length calls
              ∧ nsteps removal (List.length calls) this this'
              ∧ length this' = Z.of_nat N - Z.of_nat (List.length calls))
    as Hprogress.
  { intros calls fuel Hin Hfuel. rewrite <-Hadded in Hin, Hfuel.
    destruct (removals_in_range calls this added fuel Hlist Hin Hfuel)
      as (removed & this' & Hrem & Hcount).
    exists removed, this'. split; [done|]. split; [done|].
    pose proof (removals_nsteps _ _ _ _ _ Hrem) as Hsteps.
    split; [done|]. by apply Hacc. }
  exists this. split; [done|]. split; [fold N in Hlen; lia|].
  split; [exact Hacc|]. split; [exact Hprogress|].
  intros M fuel c Hc HM Hfuel.
  destruct (Hprogress (replicate M c) fuel) as (removed & this' & Hrem & Hcount & _ & Hl);
    [by apply in_range_replicate|done|].
  rewrite length_replicate in Hcount, Hl. by exists removed, this'.
Qed.

End chains.

(** *** The theorems at the example lists *)

Section witnesses.
Import Examples.

Lemma chain_abc : chain list_abc nodes_abc.
Proof. concrete_chain. Defined.

Lemma pop_spec_witness :
  is_list list_abc nodes_abc
  ∧ pop 2 list_abc
    = Ret (Some 2%nat,
           {| heap := <[ 1%nat := node_b None ]> (heap list_abc);
              head := Some 0%nat; tail := Some 1%nat; length := 2 |})
  ∧ pop 0 list_a
    = Ret (Some 0%nat,
           {| heap := heap list_a; head := None; tail := None; length := 0 |})
  ∧ pop 0 (createLinkedList (T := string)) = Ret (None, createLinkedList).
Proof.
  split; [exact is_list_abc|]. split; [|split].
  - destruct (pop_spec list_abc nodes_abc 2 is_list_abc) as (_ & _ & H).
    refine (proj1 (proj2 (H [(0%nat, "a")] 1%nat "b" 2%nat "c" eq_refl _))).
    cbn. lia.
  - destruct (pop_spec list_a nodes_a 0 is_list_a) as (_ & H & _).
    exact (H 0%nat "a" eq_refl).
  - destruct (pop_spec (T := string) createLinkedList [] 0 is_list_create)
      as (H & _).
    exact (H eq_refl).
Defined.

Lemma get_spec_witness :
  get (-1) list_abc = Ret (None, list_abc)
  ∧ get 3 list_abc = Ret (None, list_abc)
  ∧ get 1 list_abc = Ret (Some 1%nat, list_abc).
Proof.
  pose proof (get_spec list_abc nodes_abc) as H.
  split; [|split].
  - apply (H (-1) chain_abc eq_refl). left. lia.
  - apply (H 3 chain_abc eq_refl). right. cbn. lia.
  - destruct (proj2 (H 1 chain_abc eq_refl)) as (l & v & Hlv & _ & Hget).
    { cbn. lia. }
    cbn in Hlv. injection Hlv as <- <-. exact Hget.
Defined.

Lemma print_spec_witness :
  print id 4 list_abc = Ret ("a => b => c", list_abc).
Proof.
  refine (proj1 (print_spec id list_abc nodes_abc 4 chain_abc _)).
  cbn. lia.
Defined.

Lemma delete_out_of_range_witness :
  delete (-1) list_abc = Ret (None, list_abc)
  ∧ delete 4 list_abc = Ret (None, list_abc)
  ∧ delete 3 list_abc = TypeError.
Proof.
  destruct (delete_out_of_range list_abc nodes_abc chain_abc eq_refl)
    as [Hguard Hraise].
  split; [|split].
  - apply Hguard. left. lia.
  - apply Hguard. right. cbn. lia.
  - exact Hraise.
Defined.

Lemma delete_sole_node_witness :
  delete 0 list_a
  = Ret (Some 0%nat,
         {| heap := heap list_a; head := None; tail := Some 0%nat;
            length := 0 |}).
Proof. exact (proj1 (delete_sole_node list_a 0%nat "a" is_list_a)). Defined.

Lemma delete_after_head_witness :
  delete 1 list_ab
  = Ret (Some 1%nat,
         {| heap := <[ 0%nat := node_a None ]> (heap list_ab);
            head := Some 0%nat; tail := Some 1%nat; length := 1 |})
  ∧ tail list_ab = Some 1%nat.
Proof.
  destruct (delete_after_head list_ab [] 0%nat "a" 1%nat "b" [] is_list_ab)
    as [Hdel Htl].
  split; [exact Hdel|]. exact (proj1 (Htl eq_refl)).
Defined.

Lemma length_accounting_witness :
  ∃ removed this',
    removals 3 [ByDelete 0; ByPop] list_abc = Ret (Some <$> removed, this')
    ∧ nsteps removal 2 list_abc this'
    ∧ (2 ≤ 3)%nat ∧ length this' = 1.
Proof.
  destruct (length_accounting ["a"; "b"; "c"])
    as (this & Hrun & _ & Hacc & Hprogress & _).
  rewrite pushes_abc in Hrun. injection Hrun as <-.
  destruct (Hprogress [ByDelete 0; ByPop] 3%nat)
    as (removed & this' & Hrem & _ & Hsteps & _).
  { cbn. repeat split; (lia || discriminate). }
  { cbn. lia. }
  exists removed, this'. split; [exact Hrem|]. split; [exact Hsteps|].
  exact (Hacc 2%nat this' Hsteps).
Defined.

(** On a state that [delete] has left with [length] above the number of
    nodes in the chain, [get] walks off the chain and raises. *)
Example get_after_delete_of_tail :
  (this ← pushes ["a"; "b"] createLinkedList;
   '(_, this) ← delete 1 this;
   '(_, this) ← push "c" this;
   '(node, _) ← get 2 this;
   Ret node) = TypeError.
Proof. vm_compute. reflexivity. Qed.

Lemma reachable_abc : reachable list_abc.
Proof.
  exact (pushes_reachable ["a"; "b"; "c"] createLinkedList list_abc
           (rtc_refl _ _) pushes_abc).
Defined.

Lemma push_appends_witness :
  ∃ node this',
    push "c" list_ab = Ret (node, this')
    ∧ heap list_ab !! node = None
    ∧ is_list this' (nodes_ab ++ [(node, "c")])
    ∧ tail this' = Some node
    ∧ heap this' !! node = Some {| value := "c"; next := None |}
    ∧ length this' = length list_ab + 1.
Proof. exact (push_appends list_ab nodes_ab "c" is_list_ab). Defined.

Lemma push_never_raises_witness :
  ∃ node this',
    push "d" list_abc = Ret (node, this')
    ∧ heap list_abc !! node = None
    ∧ tail this' = Some node
    ∧ heap this' !! node = Some {| value := "d"; next := None |}
    ∧ length this' = length list_abc + 1
    ∧ reachable this'.
Proof. exact (push_never_raises list_abc "d" reachable_abc). Defined.

Lemma reachable_invariants_witness :
  0 ≤ length list_abc
  ∧ I4 list_abc
  ∧ (head list_abc ≠ None → tail list_abc ≠ None ∧ 0 < length list_abc)
  ∧ ∃ nodes, chain list_abc nodes ∧ NoDup nodes.*1
             ∧ Z.of_nat (List.length nodes) ≤ length list_abc.
Proof. exact (reachable_invariants list_abc reachable_abc). Defined.

Lemma print_reachable_witness :
  ∃ nodes, chain list_abc nodes
           ∧ ∀ fuel : nat, (List.length nodes < fuel)%nat →
               print id fuel list_abc
                 = Ret (join " => " (id <$> nodes.*2), list_abc).
Proof. exact (print_reachable id list_abc reachable_abc). Defined.

Lemma reachable_empty_witness :
  head (createLinkedList (T := string)) = None
  ∧ get 0 (createLinkedList (T := string)) = Ret (None, createLinkedList)
  ∧ pop 0 (createLinkedList (T := string)) = Ret (None, createLinkedList)
  ∧ print id 1 (createLinkedList (T := string))
    = Ret (EmptyString, createLinkedList).
Proof.
  destruct (reachable_empty (T := string) createLinkedList (rtc_refl _ _) eq_refl)
    as (Hhd & Hget & Hpop & Hprint).
  split; [exact Hhd|]. split; [exact (Hget 0)|].
  split; [exact (Hpop 0%nat)|exact (Hprint id 0%nat)].
Defined.

Lemma pushes_get_witness :
  ∃ this l nd,
    pushes ["a"; "b"; "c"] createLinkedList = Ret this
    ∧ get 1 this = Ret (Some l, this)
    ∧ heap this !! l = Some nd
    ∧ value nd = "b".
Proof.
  destruct (pushes_get ["a"; "b"; "c"]) as (this & Hrun & Hget).
  destruct (Hget 1) as (l & nd & Hl & Hnd & Hval); [cbn; lia|].
  exists this, l, nd. cbn in Hval. injection Hval as Hval.
  split; [exact Hrun|]. split; [exact Hl|]. split; [exact Hnd|].
  symmetry. exact Hval.
Defined.

Lemma pushes_print_witness :
  ∃ this,
    pushes ["a"; "b"; "c"] createLinkedList = Ret this
    ∧ print id 4 this = Ret ("a => b => c", this).
Proof.
  destruct (pushes_print id ["a"; "b"; "c"]) as (this & Hrun & Hprint).
  exists this. split; [exact Hrun|]. apply (Hprint 4%nat). cbn. lia.
Defined.

Lemma push_then_pop_witness :
  ∃ node this1 this2,
    push "c" list_ab = Ret (node, this1)
    ∧ pop 2 this1 = Ret (Some node, this2)
    ∧ is_list this2 nodes_ab
    ∧ head this2 = head list_ab ∧ tail this2 = tail list_ab
    ∧ length this2 = length list_ab.
Proof.
  apply (push_then_pop list_ab nodes_ab "c" 2 is_list_ab). cbn. lia.
Defined.

Lemma delete_keeps_list_witness :
  ∃ this', delete 1 list_abc = Ret (Some 1%nat, this')
           ∧ is_list this' [(0%nat, "a"); (2%nat, "c")].
Proof.
  apply (delete_keeps_list list_abc [(0%nat, "a")] 1%nat "b" [(2%nat, "c")]
           is_list_abc).
  discriminate.
Defined.

Lemma pops_drain_witness :
  ∃ this', pops 3 3 list_abc = Ret ([Some 2%nat; Some 1%nat; Some 0%nat], this')
           ∧ is_list this' []
           ∧ head this' = None ∧ tail this' = None ∧ length this' = 0
           ∧ pop 3 this' = Ret (None, this').
Proof. apply (pops_drain list_abc nodes_abc 3 is_list_abc). cbn. lia. Defined.

Lemma delete_tail_then_pop_raises_witness :
  ∃ this', delete 2 list_abc = Ret (Some 2%nat, this')
           ∧ tail this' = Some 2%nat
           ∧ pop 3 this' = TypeError.
Proof.
  apply (delete_tail_then_pop_raises list_abc [(0%nat, "a")] 1%nat "b" 2%nat "c"
           3 is_list_abc).
  cbn. lia.
Defined.

End witnesses.

End LinkedListFacts.
